(** * lwir-compress: temporal residual codec and decision engines

    A shallow embedding of the C++ sources of the LWIR temporal compressor
    (residual.cpp, bitdepth.cpp, encoder.cpp, config.cpp, decision.cpp,
    pipeline.cpp) and the properties of the written specification checked
    against it.

    Conventions.  Fixed-width integers are integers of [Z] with the
    wrap-around of every conversion written out ([to_u16], [to_i16],
    [to_u32], [to_i32]).  C++ [double] is Rocq's primitive binary64 [float].
    A [std::vector] is a [list]; the loops [for (i = 0; i < pixel_count; ++i)]
    become a map over the indices [0 .. pixel_count-1].  Reading a buffer
    beyond its end is undefined in C++; the model reads 0 there. *)

From Stdlib Require Import ZArith List Lia Bool Floats Uint63.
From Stdlib.Strings Require Byte.
Import ListNotations.
Local Open Scope Z_scope.

(* ------------------------------------------------------------------ *)
(** ** Machine arithmetic *)

Definition to_u16 (z : Z) : Z := z mod 65536.
Definition to_i16 (z : Z) : Z := (z + 32768) mod 65536 - 32768.
Definition to_u32 (z : Z) : Z := z mod 4294967296.
Definition to_i32 (z : Z) : Z := (z + 2147483648) mod 4294967296 - 2147483648.

Definition is_i16 (z : Z) : Prop := -32768 <= z <= 32767.
Definition is_u16 (z : Z) : Prop := 0 <= z <= 65535.

(** [a << n] and [a >> n] on [uint32_t].  A shift count of 32 or more is
    undefined in C++; the model yields 0. *)
Definition shl32 (a n : Z) : Z :=
  if n <? 32 then to_u32 (Z.shiftl a n) else 0.
Definition shr32 (a n : Z) : Z :=
  if n <? 32 then Z.shiftr a n else 0.

(** [static_cast<double>] of a non-negative integer below 2^63, and
    [static_cast<uint32_t>] of a double (truncation toward zero). *)
Definition Z2double (z : Z) : float := PrimFloat.of_uint63 (Uint63.of_Z z).

Definition double_trunc (f : float) : Z :=
  match Prim2SF f with
  | S754_finite s m e =>
      let v := if 0 <=? e then Z.pos m * 2 ^ e else Z.pos m / 2 ^ (- e) in
      if s then - v else v
  | _ => 0
  end.

(** The loop [for (size_t i = 0; i < pixel_count; ++i) out[i] = body(i)]. *)
Definition for_pixels {A : Type} (pixel_count : nat) (body : nat -> A) : list A :=
  map body (seq 0 pixel_count).

Definition at_ (buf : list Z) (i : nat) : Z := nth i buf 0.

(* ------------------------------------------------------------------ *)
(** ** residual.hpp / residual.cpp *)

Record QuantizationParams : Type := mkQuantizationParams {
  dead_zone_T : Z;      (* uint32_t *)
  quant_Q_fixed : Z;    (* uint32_t, Q * 2^fp_bits *)
  fp_bits : Z           (* uint32_t *)
}.

(** The constructor [QuantizationParams(T, Q, fp)]:
    [quant_Q_fixed = static_cast<uint32_t>(Q * (1u << fp_bits) + 0.5)]. *)
Definition QuantizationParams_ctor (T : Z) (Q : float) (fp : Z) : QuantizationParams :=
  mkQuantizationParams T
    (to_u32 (double_trunc (PrimFloat.add (PrimFloat.mul Q (Z2double (shl32 1 fp))) 0.5%float)))
    fp.

Definition get_Q (p : QuantizationParams) : float :=
  PrimFloat.div (Z2double (quant_Q_fixed p)) (Z2double (shl32 1 (fp_bits p))).

(** [residual[i] = static_cast<int16_t>(current[i]) - static_cast<int16_t>(previous[i])],
    the [int] difference narrowed to [int16_t] by the assignment. *)
Definition residual_of (cur prev : Z) : Z := to_i16 (to_i16 cur - to_i16 prev).

Definition compute_residual (current previous : list Z) (pixel_count : nat) : list Z :=
  for_pixels pixel_count (fun i => residual_of (at_ current i) (at_ previous i)).

(** One iteration of the loop of [quantize_residual]. *)
Definition quantize_one (params : QuantizationParams) (R : Z) : Z :=
  let T := dead_zone_T params in
  let Q_fixed := quant_Q_fixed params in
  let fp := fp_bits params in
  let rounding := shl32 1 (to_u32 (fp - 1)) in
  let sign := if 0 <=? R then 1 else -1 in
  let abs_R := to_u32 (Z.abs R) in
  let a2 := if T <? abs_R then abs_R - T else 0 in
  let numerator := to_u32 (shl32 a2 fp + rounding) in
  let q_abs := numerator / Q_fixed in
  to_i16 (sign * to_i32 q_abs).

Definition quantize_residual (residual : list Z) (pixel_count : nat)
    (params : QuantizationParams) : list Z :=
  for_pixels pixel_count (fun i => quantize_one params (at_ residual i)).

(** The dead-zoned magnitude [a2 = max(0, |R| - T)] on integers. *)
Definition a2_of (T r : Z) : Z := if T <? Z.abs r then Z.abs r - T else 0.

(** One iteration of the loop of [dequantize_residual]. *)
Definition dequantize_one (params : QuantizationParams) (q : Z) : Z :=
  let T := dead_zone_T params in
  let Q_fixed := quant_Q_fixed params in
  let fp := fp_bits params in
  let T_half := T / 2 in
  if q =? 0 then 0
  else
    let sign := if 0 <=? q then 1 else -1 in
    let abs_q := to_u32 (Z.abs q) in
    let recon_abs := to_u32 (shr32 (to_u32 (abs_q * Q_fixed)) fp + T_half) in
    to_i16 (sign * to_i32 recon_abs).

Definition dequantize_residual (quantized : list Z) (pixel_count : nat)
    (params : QuantizationParams) : list Z :=
  for_pixels pixel_count (fun i => dequantize_one params (at_ quantized i)).

(** [bias_residual] / [unbias_residual]; [bias_offset] is an [int16_t]. *)
Definition bias_residual (residual : list Z) (pixel_count : nat) (bias_offset : Z) : list Z :=
  for_pixels pixel_count (fun i => to_u16 (at_ residual i + bias_offset)).

Definition unbias_residual (biased : list Z) (pixel_count : nat) (bias_offset : Z) : list Z :=
  for_pixels pixel_count (fun i => to_i16 (at_ biased i - bias_offset)).

(** [std::clamp(val, 0, 65535)]. *)
Definition clamp (v lo hi : Z) : Z := if v <? lo then lo else if hi <? v then hi else v.

Definition reconstruct_frame (residual previous : list Z) (pixel_count : nat) : list Z :=
  for_pixels pixel_count
    (fun i => to_u16 (clamp (at_ previous i + at_ residual i) 0 65535)).

Definition add_residual_to_reference (reference residual : list Z) (pixel_count : nat) : list Z :=
  reconstruct_frame residual reference pixel_count.

(** The two inline loops of encoder.cpp that move quantized symbols in and
    out of the unsigned domain of the entropy coder. *)
Definition to_unsigned_32768 (quantized : list Z) (pixel_count : nat) : list Z :=
  for_pixels pixel_count (fun i => to_u16 (at_ quantized i + 32768)).

Definition to_signed_32768 (decoded_unsigned : list Z) (pixel_count : nat) : list Z :=
  for_pixels pixel_count (fun i => to_i16 (at_ decoded_unsigned i - 32768)).

(* ------------------------------------------------------------------ *)
(** ** bitdepth.hpp / bitdepth.cpp *)

Record RangeMap : Type := mkRangeMap {
  min_value : Z;   (* uint16_t *)
  max_value : Z;   (* uint16_t *)
  range : Z        (* uint32_t, max_value - min_value *)
}.

(** The constructor [RangeMap(min_val, max_val)]. *)
Definition RangeMap_ctor (min_val max_val : Z) : RangeMap :=
  mkRangeMap min_val max_val (to_u32 (max_val - min_val)).

Definition is_beneficial (m : RangeMap) : bool := range m <? 32768.

Definition compute_range_map (data : list Z) (count : nat) : RangeMap :=
  match count with
  | O => RangeMap_ctor 0 0
  | S _ =>
      let step (acc : Z * Z) (i : nat) :=
        let '(min_val, max_val) := acc in
        let min_val := if at_ data i <? min_val then at_ data i else min_val in
        let max_val := if max_val <? at_ data i then at_ data i else max_val in
        (min_val, max_val) in
      let '(min_val, max_val) :=
        fold_left step (seq 1 (count - 1)) (at_ data 0, at_ data 0) in
      RangeMap_ctor min_val max_val
  end.

Definition map_to_12bit (src : list Z) (count : nat) (map_ : RangeMap) : list Z :=
  if range map_ =? 0 then for_pixels count (fun _ => 0)
  else
    let min := min_value map_ in
    let rounding := range map_ / 2 in
    for_pixels count (fun i =>
      let val := to_u32 (at_ src i - min) in
      let mapped := to_u32 (val * 4095 + rounding) / range map_ in
      to_u16 mapped).

Definition map_from_12bit (src : list Z) (count : nat) (map_ : RangeMap) : list Z :=
  if range map_ =? 0 then for_pixels count (fun _ => min_value map_)
  else
    let min := min_value map_ in
    let rounding := 2047 in
    for_pixels count (fun i =>
      let mapped := to_u32 (at_ src i * range map_ + rounding) / 4095 in
      to_u16 (to_u32 (mapped + min))).

(* ------------------------------------------------------------------ *)
(** ** frame.hpp *)

Module Frame.
Record t : Type := mk {
  data : list Z;      (* std::vector<uint16_t> *)
  width : Z;          (* uint32_t *)
  height : Z;         (* uint32_t *)
  timestamp : Z;      (* uint64_t *)
  frame_index : Z     (* uint32_t *)
}.
(** [Frame()] *)
Definition default : t := mk [] 0 0 0 0.
End Frame.

Module CompressedFrame.
Record t : Type := mk {
  compressed_data : list Byte.byte;
  width : Z;
  height : Z;
  frame_index : Z;
  timestamp : Z;
  is_keyframe : bool;
  near_lossless : Z;
  quant_Q : float;
  dead_zone_T : Z;
  fp_bits : Z;
  range_min : Z;
  range_max : Z;
  use_range_map : bool
}.
End CompressedFrame.

(* ------------------------------------------------------------------ *)
(** ** The CharLS JPEG-LS coder (external library)

    encoder.cpp drives CharLS through its C API.  The coder is not part of
    the repository; it is an interface here: encoding a sample buffer under
    a frame header and a NEAR value, reading the header of a byte string,
    decoding the samples of a byte string.  [None] is any CharLS error. *)

Record charls_frame_info : Type := mk_frame_info {
  fi_width : Z;
  fi_height : Z;
  fi_bits_per_sample : Z;
  fi_component_count : Z
}.

Class CharLS : Type := {
  charls_encode_from_buffer :
    list Z -> charls_frame_info -> Z -> option (list Byte.byte);
  charls_read_header : list Byte.byte -> option charls_frame_info;
  charls_decode_to_buffer : list Byte.byte -> nat -> option (list Z)
}.

(** How a call of the frame codec ends: [true], or [false] after a line on
    [std::cerr].  The output argument of the C++ functions is the value
    carried by [Success]; what a failed call leaves in it is not modelled.
    The lines on [std::cerr] are named by the error kind they report:
    - "Cannot encode residual frame: no reference frame" and
      "Cannot decode residual frame: no reference frame": [NoReference];
    - "Frame size mismatch with reference": [DimensionMismatch];
    - [encode_charls_16bit] returned false: [CodecFailure];
    - [decode_charls_16bit] returned false: [DecodeFailure]. *)
Inductive failure : Type :=
  | NoReference
  | DimensionMismatch
  | CodecFailure
  | DecodeFailure.

Inductive outcome (A : Type) : Type :=
  | Success (a : A)
  | Failed (e : failure).
Arguments Success {A} a.
Arguments Failed {A} e.

(* ------------------------------------------------------------------ *)
(** ** encoder.hpp / encoder.cpp *)

Record FrameEncoder : Type := mkFrameEncoder {
  reference_frame_ : Frame.t;             (* previous reconstructed frame *)
  reference_frame_initialized_ : bool
}.

(** [FrameEncoder::FrameEncoder()] *)
Definition FrameEncoder_ctor : FrameEncoder := mkFrameEncoder Frame.default false.

(** [const size_t pixel_count = width * height;] the product is taken in
    [uint32_t]. *)
Definition pixel_count_of (width height : Z) : nat := Z.to_nat (to_u32 (width * height)).

Section FrameCodec.
Context {codec : CharLS}.

Definition encode_charls_16bit (data : list Z) (width height near_lossless : Z)
    (bits_per_sample : Z) : option (list Byte.byte) :=
  charls_encode_from_buffer data
    (mk_frame_info (to_u32 width) (to_u32 height) bits_per_sample 1) near_lossless.

Definition decode_charls_16bit (compressed_data : list Byte.byte) (width height : Z)
    : option (list Z) :=
  match charls_read_header compressed_data with
  | None => None
  | Some frame_info =>
      if negb (fi_width frame_info =? width) || negb (fi_height frame_info =? height)
         || (negb (fi_bits_per_sample frame_info =? 16)
             && negb (fi_bits_per_sample frame_info =? 12))
      then None
      else charls_decode_to_buffer compressed_data (Z.to_nat (width * height))
  end.

(** [encode_intra_frame]: the emitted record (or the failure) and the
    encoder afterwards. *)
Definition encode_intra_frame (enc : FrameEncoder) (frame : Frame.t) (near_lossless : Z)
    (enable_12bit_mode : bool) : outcome CompressedFrame.t * FrameEncoder :=
  let pixel_count := pixel_count_of (Frame.width frame) (Frame.height frame) in
  let range_map := compute_range_map (Frame.data frame) pixel_count in
  let use_map := enable_12bit_mode && is_beneficial range_map in
  let data_to_encode :=
    if use_map then map_to_12bit (Frame.data frame) pixel_count range_map
    else Frame.data frame in
  let range_min := if use_map then min_value range_map else 0 in
  let range_max := if use_map then max_value range_map else 65535 in
  let bits_per_sample := if use_map then 12 else 16 in
  match encode_charls_16bit data_to_encode (Frame.width frame) (Frame.height frame)
          near_lossless bits_per_sample with
  | None => (Failed CodecFailure, enc)
  | Some bytes =>
      let output :=
        CompressedFrame.mk bytes (Frame.width frame) (Frame.height frame)
          (Frame.frame_index frame) (Frame.timestamp frame) true near_lossless
          0%float 0 0 range_min range_max use_map in
      if (near_lossless =? 0) || (0 <? near_lossless) then
        match decode_charls_16bit bytes (Frame.width frame) (Frame.height frame) with
        | None => (Failed DecodeFailure, enc)
        | Some decoded =>
            let decoded :=
              if use_map
              then map_from_12bit decoded pixel_count (RangeMap_ctor range_min range_max)
              else decoded in
            (Success output,
             mkFrameEncoder
               (Frame.mk decoded (Frame.width frame) (Frame.height frame)
                  (Frame.timestamp frame) (Frame.frame_index frame))
               true)
        end
      else (Success output, enc)
  end.

(** The closed-loop branch and the open-loop branch of step 5 of
    [encode_residual_frame] update only [data], [timestamp] and
    [frame_index] of the reference. *)
Definition update_reference (enc : FrameEncoder) (new_data : list Z) (ts idx : Z)
    : FrameEncoder :=
  mkFrameEncoder
    (Frame.mk new_data (Frame.width (reference_frame_ enc))
       (Frame.height (reference_frame_ enc)) ts idx)
    (reference_frame_initialized_ enc).

Definition encode_residual_frame (enc : FrameEncoder) (frame : Frame.t) (near_lossless : Z)
    (quant_params : QuantizationParams) : outcome CompressedFrame.t * FrameEncoder :=
  if negb (reference_frame_initialized_ enc) then (Failed NoReference, enc)
  else if negb (Frame.width frame =? Frame.width (reference_frame_ enc))
          || negb (Frame.height frame =? Frame.height (reference_frame_ enc))
  then (Failed DimensionMismatch, enc)
  else
    let pixel_count := pixel_count_of (Frame.width frame) (Frame.height frame) in
    let residual :=
      compute_residual (Frame.data frame) (Frame.data (reference_frame_ enc)) pixel_count in
    let quantized := quantize_residual residual pixel_count quant_params in
    let quantized_unsigned := to_unsigned_32768 quantized pixel_count in
    match encode_charls_16bit quantized_unsigned (Frame.width frame) (Frame.height frame)
            near_lossless 16 with
    | None => (Failed CodecFailure, enc)
    | Some bytes =>
        let output :=
          CompressedFrame.mk bytes (Frame.width frame) (Frame.height frame)
            (Frame.frame_index frame) (Frame.timestamp frame) false near_lossless
            (get_Q quant_params) (dead_zone_T quant_params) (fp_bits quant_params)
            0 65535 false in
        if 0 <? near_lossless then
          match decode_charls_16bit bytes (Frame.width frame) (Frame.height frame) with
          | None => (Failed DecodeFailure, enc)
          | Some decoded_unsigned =>
              let decoded_quantized := to_signed_32768 decoded_unsigned pixel_count in
              let reconstructed_residual :=
                dequantize_residual decoded_quantized pixel_count quant_params in
              let reconstructed_frame :=
                add_residual_to_reference (Frame.data (reference_frame_ enc))
                  reconstructed_residual pixel_count in
              (Success output,
               update_reference enc reconstructed_frame
                 (Frame.timestamp frame) (Frame.frame_index frame))
          end
        else
          (* NEAR=0: open loop, the reference becomes the current frame *)
          (Success output,
           update_reference enc (Frame.data frame)
             (Frame.timestamp frame) (Frame.frame_index frame))
    end.

Definition encode_frame (enc : FrameEncoder) (frame : Frame.t) (is_keyframe : bool)
    (keyframe_near residual_near : Z) (quant_params : QuantizationParams)
    (enable_12bit_mode : bool) : outcome CompressedFrame.t * FrameEncoder :=
  if is_keyframe then encode_intra_frame enc frame keyframe_near enable_12bit_mode
  else encode_residual_frame enc frame residual_near quant_params.

(** [decode_frame]: the decoded frame (or the failure) and the codec
    afterwards. *)
Definition decode_frame (enc : FrameEncoder) (compressed : CompressedFrame.t)
    : outcome Frame.t * FrameEncoder :=
  let emit (samples : list Z) :=
    Frame.mk samples (CompressedFrame.width compressed) (CompressedFrame.height compressed)
      (CompressedFrame.timestamp compressed) (CompressedFrame.frame_index compressed) in
  if CompressedFrame.is_keyframe compressed then
    match decode_charls_16bit (CompressedFrame.compressed_data compressed)
            (CompressedFrame.width compressed) (CompressedFrame.height compressed) with
    | None => (Failed DecodeFailure, enc)
    | Some samples => (Success (emit samples), enc)
    end
  else if negb (reference_frame_initialized_ enc) then (Failed NoReference, enc)
  else
    let pixel_count :=
      pixel_count_of (CompressedFrame.width compressed) (CompressedFrame.height compressed) in
    match decode_charls_16bit (CompressedFrame.compressed_data compressed)
            (CompressedFrame.width compressed) (CompressedFrame.height compressed) with
    | None => (Failed DecodeFailure, enc)
    | Some decoded_unsigned =>
        let decoded_quantized := to_signed_32768 decoded_unsigned pixel_count in
        let quant_params :=
          QuantizationParams_ctor (CompressedFrame.dead_zone_T compressed)
            (CompressedFrame.quant_Q compressed) (CompressedFrame.fp_bits compressed) in
        let reconstructed_residual :=
          dequantize_residual decoded_quantized pixel_count quant_params in
        let output_data :=
          add_residual_to_reference (Frame.data (reference_frame_ enc))
            reconstructed_residual pixel_count in
        (Success (emit output_data),
         update_reference enc output_data
           (CompressedFrame.timestamp compressed) (CompressedFrame.frame_index compressed))
    end.

(** [reset] *)
Definition reset (enc : FrameEncoder) : FrameEncoder :=
  mkFrameEncoder
    (Frame.mk [] (Frame.width (reference_frame_ enc)) (Frame.height (reference_frame_ enc))
       (Frame.timestamp (reference_frame_ enc)) (Frame.frame_index (reference_frame_ enc)))
    false.

End FrameCodec.

(* ------------------------------------------------------------------ *)
(** ** stats.hpp *)

Inductive FrameMode : Type := USE_INTRA | USE_RESIDUAL.

Definition FrameMode_eqb (a b : FrameMode) : bool :=
  match a, b with
  | USE_INTRA, USE_INTRA | USE_RESIDUAL, USE_RESIDUAL => true
  | _, _ => false
  end.

Record ResidualStats : Type := mkResidualStats {
  mean : float;
  p95 : float;
  p99 : float;
  entropy : float;
  zero_mass : float;
  mean_abs : float;
  bps_res : float
}.

(** [ResidualStats()] *)
Definition ResidualStats_default : ResidualStats :=
  mkResidualStats 0%float 0%float 0%float 0%float 0%float 0%float 0%float.

(** The comparisons of C++ on [double]. *)
Definition dlt (a b : float) : bool := PrimFloat.ltb a b.   (* a < b *)
Definition dgt (a b : float) : bool := PrimFloat.ltb b a.   (* a > b *)
Definition dge (a b : float) : bool := PrimFloat.leb b a.   (* a >= b *)

(* ------------------------------------------------------------------ *)
(** ** config.hpp / config.cpp: the decision engine the pipeline runs *)

Module ConfigEngine.

Record CompressionConfig : Type := mkCompressionConfig {
  gop_period : Z;
  keyframe_near : Z;
  residual_near : Z;
  dead_zone_T : Z;
  quant_Q : float;
  fp_bits : Z;
  enable_12bit_mode : bool;
  decision_p95_threshold : float;
  decision_p99_threshold : float;
  decision_entropy_threshold : float;
  decision_hysteresis_bpp : float
}.

(** The member initialisers of [CompressionConfig]. *)
Definition CompressionConfig_default : CompressionConfig :=
  mkCompressionConfig 60 0 10 2 2%float 8 true
    30%float 100%float 6%float 0x1.3333333333333p-3%float (* 0.15 *).

Record FrameDecisionEngine : Type := mkFrameDecisionEngine {
  config_ : CompressionConfig;
  last_keyframe_index_ : Z;
  frames_since_keyframe_ : Z;
  last_decision_ : FrameMode;
  ema_residual_bpp_ : float;
  ema_keyframe_bpp_ : float;
  ema_initialized_ : bool
}.

Definition FrameDecisionEngine_ctor (config : CompressionConfig) : FrameDecisionEngine :=
  mkFrameDecisionEngine config 0 0 USE_INTRA 0%float 0%float false.

(** The three tests of [decide_mode], on the engine after
    [frames_since_keyframe_++]. *)
Definition stage1_periodic (e : FrameDecisionEngine) : bool :=
  gop_period (config_ e) <=? frames_since_keyframe_ e.

Definition stage2_heuristic (e : FrameDecisionEngine) (stats : ResidualStats) : bool :=
  dgt (p95 stats) (decision_p95_threshold (config_ e))
  || dgt (p99 stats) (decision_p99_threshold (config_ e))
  || dgt (entropy stats) (decision_entropy_threshold (config_ e)).

Definition stage3_threshold (e : FrameDecisionEngine) : float :=
  match last_decision_ e with
  | USE_INTRA =>
      PrimFloat.sub (ema_keyframe_bpp_ e) (decision_hysteresis_bpp (config_ e))
  | USE_RESIDUAL =>
      PrimFloat.add (ema_keyframe_bpp_ e) (decision_hysteresis_bpp (config_ e))
  end.

Definition stage3_rate (e : FrameDecisionEngine) : bool :=
  ema_initialized_ e && dgt (ema_residual_bpp_ e) (stage3_threshold e).

(** The three assignments made wherever [decide_mode] returns USE_INTRA. *)
Definition emit_intra (e : FrameDecisionEngine) (frame_index : Z) : FrameDecisionEngine :=
  mkFrameDecisionEngine (config_ e) frame_index 0 USE_INTRA
    (ema_residual_bpp_ e) (ema_keyframe_bpp_ e) (ema_initialized_ e).

Definition decide_mode (e0 : FrameDecisionEngine) (stats : ResidualStats) (frame_index : Z)
    : FrameMode * FrameDecisionEngine :=
  let e :=
    mkFrameDecisionEngine (config_ e0) (last_keyframe_index_ e0)
      (to_u32 (frames_since_keyframe_ e0 + 1)) (last_decision_ e0)
      (ema_residual_bpp_ e0) (ema_keyframe_bpp_ e0) (ema_initialized_ e0) in
  if stage1_periodic e then (USE_INTRA, emit_intra e frame_index)
  else if stage2_heuristic e stats then (USE_INTRA, emit_intra e frame_index)
  else if stage3_rate e then (USE_INTRA, emit_intra e frame_index)
  else
    (USE_RESIDUAL,
     mkFrameDecisionEngine (config_ e) (last_keyframe_index_ e)
       (frames_since_keyframe_ e) USE_RESIDUAL
       (ema_residual_bpp_ e) (ema_keyframe_bpp_ e) (ema_initialized_ e)).

(** [constexpr double alpha = 0.1], the binary64 value nearest to 0.1. *)
Definition alpha : float := 0x1.999999999999ap-4%float.

(** [(compressed_bytes * 8.0) / (640.0 * 512.0)] *)
Definition bits_per_pixel (compressed_bytes : Z) : float :=
  PrimFloat.div (PrimFloat.mul (Z2double compressed_bytes) 8%float)
    (PrimFloat.mul 640%float 512%float).

Definition ema_blend (bpp old : float) : float :=
  PrimFloat.add (PrimFloat.mul alpha bpp)
    (PrimFloat.mul (PrimFloat.sub 1%float alpha) old).

Definition update_stats (e : FrameDecisionEngine) (compressed_bytes : Z)
    (was_keyframe : bool) : FrameDecisionEngine :=
  let bpp := bits_per_pixel compressed_bytes in
  if negb (ema_initialized_ e) then
    if was_keyframe then
      mkFrameDecisionEngine (config_ e) (last_keyframe_index_ e)
        (frames_since_keyframe_ e) (last_decision_ e)
        (ema_residual_bpp_ e) bpp true
    else
      mkFrameDecisionEngine (config_ e) (last_keyframe_index_ e)
        (frames_since_keyframe_ e) (last_decision_ e)
        bpp (ema_keyframe_bpp_ e) true
  else if was_keyframe then
    mkFrameDecisionEngine (config_ e) (last_keyframe_index_ e)
      (frames_since_keyframe_ e) (last_decision_ e)
      (ema_residual_bpp_ e) (ema_blend bpp (ema_keyframe_bpp_ e)) (ema_initialized_ e)
  else
    mkFrameDecisionEngine (config_ e) (last_keyframe_index_ e)
      (frames_since_keyframe_ e) (last_decision_ e)
      (ema_blend bpp (ema_residual_bpp_ e)) (ema_keyframe_bpp_ e) (ema_initialized_ e).

End ConfigEngine.

(* ------------------------------------------------------------------ *)
(** ** decision.hpp / decision.cpp: the stand-alone decision engine *)

Module DecisionEngine.

Record DecisionState : Type := mkDecisionState {
  bps_intra_ema : float;
  ema_alpha : float;
  gop_period : Z;
  gop_max : Z;
  margin_bpp : float;
  hysteresis_bpp : float;
  enable_probe : bool;
  probe_band_bpp : float;
  probe_margin : float;
  frames_since_key : Z;
  last_mode : FrameMode;
  zero_mass_min : float;
  mean_abs_max : float;
  p95_max : float;
  p99_max : float
}.

(** [DecisionState()]; the hexadecimal literals are the binary64 values
    of 0.2, 0.3, 0.15, 0.15 and 0.1. *)
Definition DecisionState_default : DecisionState :=
  mkDecisionState 2.5%float 0x1.999999999999ap-3%float 60 120
    0x1.3333333333333p-2%float 0x1.3333333333333p-3%float false
    0x1.3333333333333p-3%float 0x1.999999999999ap-4%float 0 USE_INTRA
    0.75%float 12%float 30%float 50%float.

(** The engine holds nothing but [state_]. *)
Definition FrameDecisionEngine : Type := DecisionState.

(** [frame_index % gop_period] divides by zero (undefined) when
    [gop_period] is 0; [Z.modulo] then yields [frame_index]. *)
Definition should_force_periodic (state_ : DecisionState) (frame_index : Z) : bool :=
  (frame_index mod gop_period state_ =? 0)
  || (gop_max state_ <=? frames_since_key state_).

Definition should_force_heuristic (state_ : DecisionState) (stats : ResidualStats) : bool :=
  if dlt (zero_mass stats) (zero_mass_min state_) then true
  else if dgt (mean_abs stats) (mean_abs_max state_) then true
  else if dgt (p95 stats) (p95_max state_) || dgt (p99 stats) (p99_max state_) then true
  else false.

Definition should_use_intra_rate (state_ : DecisionState) (stats : ResidualStats) : bool :=
  let thresh := bps_intra_ema state_ in
  (* apply hysteresis if last frame was residual *)
  let thresh :=
    if FrameMode_eqb (last_mode state_) USE_RESIDUAL
    then PrimFloat.sub thresh (hysteresis_bpp state_)
    else thresh in
  dge (PrimFloat.add (bps_res stats) (margin_bpp state_)) thresh.

(** The tile probe is a TODO in the source: its test has an empty body. *)
Definition decide_mode (state_ : DecisionState) (stats : ResidualStats) (frame_index : Z)
    : FrameMode :=
  if should_force_periodic state_ frame_index then USE_INTRA
  else if should_force_heuristic state_ stats then USE_INTRA
  else if should_use_intra_rate state_ stats then USE_INTRA
  else USE_RESIDUAL.

Definition with_ema_since_mode (s : DecisionState) (ema : float) (since : Z)
    (mode : FrameMode) : DecisionState :=
  mkDecisionState ema (ema_alpha s) (gop_period s) (gop_max s) (margin_bpp s)
    (hysteresis_bpp s) (enable_probe s) (probe_band_bpp s) (probe_margin s)
    since mode (zero_mass_min s) (mean_abs_max s) (p95_max s) (p99_max s).



End DecisionEngine.

(* ------------------------------------------------------------------ *)
(** ** pipeline.cpp: the mode decisions of [CompressionPipeline::run]

    The body of the frame loop, without the file and codec work: frame 0 is
    a keyframe without consulting the engine, every later frame asks
    [decide_mode] at its index; after the encode, [update_stats] receives
    the number of compressed bytes.  The frame loop hands a default
    [ResidualStats] to the engine; the driver takes the statistics and the
    byte counts of the frames as inputs, so it covers that case and every
    other. *)

Definition pipeline_frame (engine : ConfigEngine.FrameDecisionEngine) (i : Z)
    (stats : ResidualStats) (compressed_bytes : Z)
    : FrameMode * ConfigEngine.FrameDecisionEngine :=
  let '(mode, engine) :=
    if 0 <? i then ConfigEngine.decide_mode engine stats i
    else (USE_INTRA, engine) in
  let is_keyframe := FrameMode_eqb mode USE_INTRA in
  (mode, ConfigEngine.update_stats engine compressed_bytes is_keyframe).

Fixpoint pipeline_modes (engine : ConfigEngine.FrameDecisionEngine) (i : Z)
    (frames : list (ResidualStats * Z)) : list FrameMode :=
  match frames with
  | [] => []
  | (stats, compressed_bytes) :: rest =>
      let '(mode, engine) := pipeline_frame engine i stats compressed_bytes in
      mode :: pipeline_modes engine (i + 1) rest
  end.

(** The counter of the pipeline's engine is below the keyframe period. *)
Definition since_key_ok (e : ConfigEngine.FrameDecisionEngine) : Prop :=
  0 <= ConfigEngine.frames_since_keyframe_ e
    < ConfigEngine.gop_period (ConfigEngine.config_ e).

(* ------------------------------------------------------------------ *)
(** ** A lossless stand-in for the entropy coder

    Used to run the frame codec on concrete frames: the byte string is the
    header (width, height, bits per sample, two bytes each, little-endian)
    followed by the samples, two bytes each.  NEAR is ignored, so the coder
    behaves like JPEG-LS at NEAR=0 on 16-bit samples. *)

Definition byte_of_Z (z : Z) : Byte.byte :=
  match Byte.of_N (Z.to_N (z mod 256)) with
  | Some b => b
  | None => Byte.x00
  end.

Definition Z_of_byte (b : Byte.byte) : Z := Z.of_N (Byte.to_N b).

Definition put_u16 (z : Z) : list Byte.byte := [byte_of_Z z; byte_of_Z (z / 256)].

Fixpoint get_u16s (bytes : list Byte.byte) : list Z :=
  match bytes with
  | lo :: hi :: rest => (Z_of_byte lo + 256 * Z_of_byte hi) :: get_u16s rest
  | _ => []
  end.

Definition raw_encode (data : list Z) (info : charls_frame_info) (near : Z)
    : option (list Byte.byte) :=
  Some (put_u16 (fi_width info) ++ put_u16 (fi_height info)
        ++ put_u16 (fi_bits_per_sample info) ++ flat_map put_u16 data).

Definition raw_read_header (bytes : list Byte.byte) : option charls_frame_info :=
  match get_u16s (firstn 6 bytes) with
  | [w; h; bits] => Some (mk_frame_info w h bits 1)
  | _ => None
  end.

Definition raw_decode (bytes : list Byte.byte) (count : nat) : option (list Z) :=
  let samples := get_u16s (skipn 6 bytes) in
  if Nat.eqb (length samples) count then Some samples else None.

#[local] Instance raw_codec : CharLS :=
  {| charls_encode_from_buffer := raw_encode;
     charls_read_header := raw_read_header;
     charls_decode_to_buffer := raw_decode |}.

(* ------------------------------------------------------------------ *)
(** ** Frames and records used as concrete inputs *)

(** A codec whose reference is the 1x1 frame [1000]. *)
Definition codec_ref_1000 : FrameEncoder :=
  mkFrameEncoder (Frame.mk [1000] 1 1 0 0) true.

(** The next 1x1 frame, two counts brighter. *)
Definition frame_1002 : Frame.t := Frame.mk [1002] 1 1 0 1.

(** The default quantization of the pipeline: T = 2, Q = 2.0, fp = 8. *)
Definition params_T2_Q2 : QuantizationParams := QuantizationParams_ctor 2 2%float 8.

(** The header CharLS sees for a 1x1 frame of 16-bit samples. *)
Definition info_1x1_16 : charls_frame_info := mk_frame_info 1 1 16 1.

(** A 3x1 frame spanning [29134, 34436], and the keyframe record that
    [encode_intra_frame] emits for it in 12-bit mode over the stand-in
    coder: samples 0, 4095 and 669 at 12 bits. *)
Definition frame_ranged : Frame.t := Frame.mk [29134; 34436; 30000] 3 1 0 0.

Definition record_ranged : CompressedFrame.t :=
  CompressedFrame.mk
    [Byte.x03; Byte.x00; Byte.x01; Byte.x00; Byte.x0c; Byte.x00;
     Byte.x00; Byte.x00; Byte.xff; Byte.x0f; Byte.x9d; Byte.x02]
    3 1 0 0 true 0 0%float 0 0 29134 34436 true.

(** The residual record that [encode_residual_frame] emits for
    [frame_1002] against [codec_ref_1000] at NEAR=0 over the stand-in
    coder: the single symbol 0 + 32768. *)
Definition record_residual_1002 : CompressedFrame.t :=
  CompressedFrame.mk
    [Byte.x01; Byte.x00; Byte.x01; Byte.x00; Byte.x10; Byte.x00; Byte.x00; Byte.x80]
    1 1 1 0 false 0 2%float 2 8 0 65535 false.

(** Residual statistics of a quiet frame (every residual inside the
    dead-zone) with a rate proxy of 2.25 bits per symbol. *)
Definition stats_quiet_2_25 : ResidualStats :=
  mkResidualStats 0%float 0%float 0%float 0%float 1%float 0%float 2.25%float.

(** Residual statistics of a quiet frame whose entropy is 7 bits. *)
Definition stats_entropy_7 : ResidualStats :=
  mkResidualStats 0%float 0%float 0%float 7%float 1%float 0%float 0%float.

(** Residual statistics with no residual inside the dead-zone and a mean
    magnitude of 20, the tails and the entropy low. *)
Definition stats_busy_mean : ResidualStats :=
  mkResidualStats 0%float 0%float 0%float 0%float 0%float 20%float 0%float.

(** Residual statistics with a 99th percentile of 200. *)
Definition stats_p99_200 : ResidualStats :=
  mkResidualStats 0%float 0%float 200%float 0%float 0%float 0%float 0%float.

(** The default configuration with a keyframe period of 3. *)
Definition config_gop3 : ConfigEngine.CompressionConfig :=
  ConfigEngine.mkCompressionConfig 3 0 10 2 2%float 8 true
    30%float 100%float 6%float 0x1.3333333333333p-3%float.

(** Residual statistics of a still scene: all residuals in the dead-zone. *)
Definition stats_still : ResidualStats :=
  mkResidualStats 0%float 0%float 0%float 0%float 1%float 0%float 0%float.

(** The default state of decision.cpp after 60 residual frames. *)
Definition state_since_60 : DecisionEngine.DecisionState :=
  DecisionEngine.with_ema_since_mode DecisionEngine.DecisionState_default
    2.5%float 60 USE_RESIDUAL.

(** Four frames for the pipeline: keyframes of 100000 bytes, residual
    frames of 10000 bytes; the second frame shows a scene change. *)
Definition frames_scene_change : list (ResidualStats * Z) :=
  [(ResidualStats_default, 100000); (stats_p99_200, 100000);
   (ResidualStats_default, 10000); (ResidualStats_default, 10000)].

(** Ten frames of a stationary sequence. *)
Definition frames_stationary : list (ResidualStats * Z) :=
  [(ResidualStats_default, 100000); (ResidualStats_default, 10000);
   (ResidualStats_default, 10000); (ResidualStats_default, 100000);
   (ResidualStats_default, 10000); (ResidualStats_default, 10000);
   (ResidualStats_default, 100000); (ResidualStats_default, 10000);
   (ResidualStats_default, 10000); (ResidualStats_default, 100000)].

(* ------------------------------------------------------------------ *)
(** ** bitdepth.hpp: [RangeMap::bits_needed], and frame.hpp: [is_valid] *)

(** The loop [while (val > 0) { bits++; val >>= 1; }] on [uint32_t]; 32
    rounds exhaust any 32-bit value. *)
Fixpoint bits_loop (fuel : nat) (val bits : Z) : Z :=
  match fuel with
  | O => bits
  | S fuel' =>
      if 0 <? val then bits_loop fuel' (shr32 val 1) (to_u32 (bits + 1)) else bits
  end.

Definition bits_needed (m : RangeMap) : Z :=
  if range m =? 0 then 1 else bits_loop 32 (range m) 0.

(** A range map as [compute_range_map] builds it from 16-bit samples. *)
Definition RangeMap_wf (m : RangeMap) : Prop :=
  0 <= min_value m /\ min_value m <= max_value m /\ max_value m <= 65535
  /\ range m = max_value m - min_value m.

(** [Frame::pixel_count] (the product is taken in [uint32_t]) and
    [Frame::is_valid]. *)
Definition Frame_pixel_count (f : Frame.t) : Z := to_u32 (Frame.width f * Frame.height f).

Definition Frame_is_valid (f : Frame.t) : bool :=
  negb (Nat.eqb (List.length (Frame.data f)) 0)
  && (0 <? Frame.width f) && (0 <? Frame.height f)
  && (Z.of_nat (List.length (Frame.data f)) =? Frame_pixel_count f).

(* ------------------------------------------------------------------ *)
(** ** The frame codec between calls, and a coder that loses nothing *)


(** The coder encodes [data] under [info] and NEAR to [bytes], and reads
    the same header and the same samples back from [bytes]. *)
Definition coder_returns {codec : CharLS} (data : list Z) (info : charls_frame_info)
    (near : Z) (bytes : list Byte.byte) : Prop :=
  charls_encode_from_buffer data info near = Some bytes
  /\ charls_read_header bytes = Some info
  /\ charls_decode_to_buffer bytes (List.length data) = Some data.

(* ------------------------------------------------------------------ *)
(** ** pipeline.cpp: the frame loop of [CompressionPipeline::run]

    The loop over the loaded frames, with the encoder in it: the index of
    the frame and a zero timestamp are stamped on the frame, frame 0 is a
    keyframe, later frames ask the engine (with a default [ResidualStats]),
    the frame is encoded with the parameters of the configuration, a failed
    encode ends the run, and the engine is told the size of the compressed
    data.  Reading the PNG files and writing the records are left out: the
    frames are the input, the records the output. *)

Definition stamp (frame : Frame.t) (i : Z) : Frame.t :=
  Frame.mk (Frame.data frame) (Frame.width frame) (Frame.height frame) 0 (to_u32 i).

Fixpoint pipeline_loop {codec : CharLS} (config : ConfigEngine.CompressionConfig)
    (engine : ConfigEngine.FrameDecisionEngine) (encoder : FrameEncoder) (i : Z)
    (frames : list Frame.t) : outcome (list CompressedFrame.t) :=
  match frames with
  | [] => Success []
  | frame :: rest =>
      let frame := stamp frame i in
      let '(mode, engine) :=
        if 0 <? i
        then ConfigEngine.decide_mode engine ResidualStats_default (Frame.frame_index frame)
        else (USE_INTRA, engine) in
      let is_keyframe := FrameMode_eqb mode USE_INTRA in
      let quant_params :=
        QuantizationParams_ctor (ConfigEngine.dead_zone_T config)
          (ConfigEngine.quant_Q config) (ConfigEngine.fp_bits config) in
      match encode_frame encoder frame is_keyframe (ConfigEngine.keyframe_near config)
              (ConfigEngine.residual_near config) quant_params
              (ConfigEngine.enable_12bit_mode config) with
      | (Failed e, _) => Failed e
      | (Success compressed, encoder) =>
          let engine :=
            ConfigEngine.update_stats engine
              (Z.of_nat (List.length (CompressedFrame.compressed_data compressed)))
              is_keyframe in
          match pipeline_loop config engine encoder (i + 1) rest with
          | Failed e => Failed e
          | Success records => Success (compressed :: records)
          end
      end
  end.

(** The mode a record was coded in. *)
Definition record_mode (r : CompressedFrame.t) : FrameMode :=
  if CompressedFrame.is_keyframe r then USE_INTRA else USE_RESIDUAL.

(** The configuration with a keyframe period of 3 and no hysteresis, and
    four 1x1 frames for the frame loop. *)
Definition config_gop3_sharp : ConfigEngine.CompressionConfig :=
  ConfigEngine.mkCompressionConfig 3 0 10 2 2%float 8 false
    30%float 100%float 6%float 0%float.

Definition frames_1x1 : list Frame.t :=
  [Frame.mk [1000] 1 1 0 0; Frame.mk [1002] 1 1 0 0;
   Frame.mk [1010] 1 1 0 0; Frame.mk [1011] 1 1 0 0].

(** The records the frame loop emits for [frames_1x1] over the stand-in
    coder. *)
Definition records_1x1 : list CompressedFrame.t :=
  Eval vm_compute in
    match pipeline_loop (codec := raw_codec) config_gop3_sharp
            (ConfigEngine.FrameDecisionEngine_ctor config_gop3_sharp)
            FrameEncoder_ctor 0 frames_1x1 with
    | Success records => records
    | Failed _ => []
    end.

(* ------------------------------------------------------------------ *)
(** ** stats.hpp / stats.cpp: [ResidualHistogram] *)

Definition to_u64 (z : Z) : Z := z mod 18446744073709551616.

Module Histogram.

Definition NUM_BINS : nat := 1024.

Record ResidualHistogram : Type := mkResidualHistogram {
  bins_ : list Z;          (* std::vector<uint64_t>, NUM_BINS entries *)
  total_samples_ : Z       (* uint64_t *)
}.

(** [ResidualHistogram::ResidualHistogram()] *)
Definition ResidualHistogram_ctor : ResidualHistogram :=
  mkResidualHistogram (repeat 0 NUM_BINS) 0.

(** The bin of a residual: its magnitude, clamped to [NUM_BINS - 1]. *)
Definition bin_of (r : Z) : nat :=
  let mag := Z.abs r in
  let mag := if Z.of_nat NUM_BINS <=? mag then Z.of_nat NUM_BINS - 1 else mag in
  Z.to_nat mag.

(** [bins_[k]++]; an index beyond the vector is undefined in C++ and does
    nothing here. *)
Fixpoint inc_bin (bins : list Z) (k : nat) : list Z :=
  match bins, k with
  | [], _ => []
  | b :: rest, O => to_u64 (b + 1) :: rest
  | b :: rest, S k' => b :: inc_bin rest k'
  end.

Definition accumulate (h : ResidualHistogram) (residuals : list Z) (count : nat)
    : ResidualHistogram :=
  mkResidualHistogram
    (fold_left (fun bins i => inc_bin bins (bin_of (at_ residuals i)))
       (seq 0 count) (bins_ h))
    (to_u64 (total_samples_ h + Z.of_nat count)).

Definition clear (h : ResidualHistogram) : ResidualHistogram :=
  mkResidualHistogram (map (fun _ => 0) (bins_ h)) 0.



(** The scan of [max_value], from the last bin down. *)
Fixpoint max_scan (i : nat) (bins : list Z) : nat :=
  match i with
  | O => 0%nat
  | S i' => if 0 <? at_ bins i' then i' else max_scan i' bins
  end.

Definition max_value (h : ResidualHistogram) : float :=
  Z2double (Z.of_nat (max_scan NUM_BINS (bins_ h))).

(** The sum of the bins, the running count up to a bin, and the number of
    the first [count] residuals that fall into bin [k]. *)
Definition bins_sum (bins : list Z) : Z := fold_right Z.add 0 bins.



Definition hits (residuals : list Z) (count k : nat) : nat :=
  List.length (filter (fun i => Nat.eqb (bin_of (at_ residuals i)) k) (seq 0 count)).

(** A histogram in its normal state: [NUM_BINS] bins, none negative, that
    add up to the number of samples, below 2^64. *)
Definition histogram_ok (h : ResidualHistogram) : Prop :=
  List.length (bins_ h) = NUM_BINS
  /\ Forall (fun b => 0 <= b) (bins_ h)
  /\ bins_sum (bins_ h) = total_samples_ h
  /\ total_samples_ h < 18446744073709551616.

End Histogram.

(* ------------------------------------------------------------------ *)
(** ** stats.hpp / stats.cpp: [FrameStats] and [SessionStats] *)

Module Session.

Record FrameStats : Type := mkFrameStats {
  frame_index : Z;
  is_keyframe : bool;
  residual_mean : float;
  residual_stddev : float;
  residual_p95 : float;
  residual_p99 : float;
  residual_max : float;
  residual_entropy : float;
  quantized_entropy : float;
  original_bytes : Z;         (* uint32_t *)
  compressed_bytes : Z;       (* uint32_t *)
  compression_ratio : float;
  encode_time_ms : float;
  max_error : float;
  mean_error : float;
  rmse : float
}.

Record SessionStats : Type := mkSessionStats {
  total_frames : Z;             (* uint32_t *)
  keyframes : Z;                (* uint32_t *)
  residual_frames : Z;          (* uint32_t *)
  total_original_bytes : Z;     (* uint64_t *)
  total_compressed_bytes : Z;   (* uint64_t *)
  overall_compression_ratio : float;
  avg_encode_time_ms : float;
  avg_residual_mean : float;
  avg_max_error : float;
  avg_rmse : float
}.

(** [SessionStats()] *)
Definition SessionStats_ctor : SessionStats :=
  mkSessionStats 0 0 0 0 0 0%float 0%float 0%float 0%float 0%float.

Definition add_frame (s : SessionStats) (fs : FrameStats) : SessionStats :=
  mkSessionStats
    (to_u32 (total_frames s + 1))
    (if is_keyframe fs then to_u32 (keyframes s + 1) else keyframes s)
    (if is_keyframe fs then residual_frames s else to_u32 (residual_frames s + 1))
    (to_u64 (total_original_bytes s + original_bytes fs))
    (to_u64 (total_compressed_bytes s + compressed_bytes fs))
    (overall_compression_ratio s)
    (PrimFloat.add (avg_encode_time_ms s) (encode_time_ms fs))
    (PrimFloat.add (avg_residual_mean s) (residual_mean fs))
    (PrimFloat.add (avg_max_error s) (max_error fs))
    (PrimFloat.add (avg_rmse s) (rmse fs)).

Definition finalize (s : SessionStats) : SessionStats :=
  let n := Z2double (total_frames s) in
  let averaged (x : float) := if 0 <? total_frames s then PrimFloat.div x n else x in
  mkSessionStats (total_frames s) (keyframes s) (residual_frames s)
    (total_original_bytes s) (total_compressed_bytes s)
    (if 0 <? total_original_bytes s
     then PrimFloat.div (Z2double (total_compressed_bytes s))
            (Z2double (total_original_bytes s))
     else overall_compression_ratio s)
    (averaged (avg_encode_time_ms s)) (averaged (avg_residual_mean s))
    (averaged (avg_max_error s)) (averaged (avg_rmse s)).

(** What a list of frame statistics holds: the keyframes, the residual
    frames, the original and the compressed bytes. *)
Definition count_key (frames : list FrameStats) : nat :=
  List.length (filter is_keyframe frames).

Definition count_residual (frames : list FrameStats) : nat :=
  List.length (filter (fun fs => negb (is_keyframe fs)) frames).

Definition sum_original (frames : list FrameStats) : Z :=
  fold_right (fun fs acc => original_bytes fs + acc) 0 frames.

Definition sum_compressed (frames : list FrameStats) : Z :=
  fold_right (fun fs acc => compressed_bytes fs + acc) 0 frames.

(** The counters are within their types. *)
Definition counters_ok (s : SessionStats) : Prop :=
  0 <= total_frames s < 4294967296
  /\ 0 <= keyframes s < 4294967296
  /\ 0 <= residual_frames s < 4294967296
  /\ 0 <= total_original_bytes s < 18446744073709551616
  /\ 0 <= total_compressed_bytes s < 18446744073709551616.

End Session.

(** [Frame(w, h, idx, ts)]: [data(w * h, 0)], the product taken in
    [uint32_t]. *)
Definition Frame_ctor (w h idx ts : Z) : Frame.t :=
  Frame.mk (repeat 0 (Z.to_nat (to_u32 (w * h)))) w h ts idx.

(** A 2x2 frame and the keyframe record the stand-in coder emits for it. *)
Definition frame_2x2 : Frame.t := Frame.mk [100; 200; 300; 400] 2 2 7 3.

(* ================================================================== *)
(** * Properties *)

(** ** The pixel loop *)

Lemma for_pixels_length {A : Type} (n : nat) (body : nat -> A) :
  List.length (for_pixels n body) = n.
Proof. unfold for_pixels. now rewrite length_map, length_seq. Qed.

Lemma for_pixels_ext {A : Type} (n : nat) (f g : nat -> A) :
  (forall i, (i < n)%nat -> f i = g i) -> for_pixels n f = for_pixels n g.
Proof.
  intros Hfg. unfold for_pixels. apply map_ext_in.
  intros i Hi. apply in_seq in Hi. apply Hfg. lia.
Qed.

Lemma at_for_pixels (n : nat) (body : nat -> Z) (i : nat) :
  (i < n)%nat -> at_ (for_pixels n body) i = body i.
Proof.
  intros Hi. unfold at_, for_pixels.
  rewrite (nth_indep _ 0 (body 0%nat)) by (now rewrite length_map, length_seq).
  rewrite map_nth, seq_nth; auto.
Qed.

Lemma for_pixels_at (buf : list Z) :
  for_pixels (List.length buf) (at_ buf) = buf.
Proof.
  apply (nth_ext _ _ 0 0).
  - apply for_pixels_length.
  - intros i Hi. rewrite for_pixels_length in Hi.
    fold (at_ (for_pixels (List.length buf) (at_ buf)) i).
    now rewrite at_for_pixels.
Qed.

Lemma Forall_at (P : Z -> Prop) (buf : list Z) (i : nat) :
  Forall P buf -> (i < List.length buf)%nat -> P (at_ buf i).
Proof.
  intros HP Hi. rewrite Forall_forall in HP. apply HP. now apply nth_In.
Qed.

(** ** Bias into the unsigned domain and back *)

Lemma to_i16_to_u16_32768 (q : Z) :
  is_i16 q -> to_i16 (to_u16 (q + 32768) - 32768) = q.
Proof.
  unfold is_i16, to_i16, to_u16. intros Hq.
  rewrite (Z.mod_small (q + 32768)) by lia.
  replace (q + 32768 - 32768 + 32768) with (q + 32768) by ring.
  rewrite Z.mod_small by lia. ring.
Qed.

(** The helpers [bias_residual] / [unbias_residual] are inverse on all of
    [int16_t] for every offset, not only on the documented [-1024, 1023]
    with offset 1024. *)
Lemma unbias_bias_one (r bias_offset : Z) :
  is_i16 r -> to_i16 (to_u16 (r + bias_offset) - bias_offset) = r.
Proof.
  unfold is_i16, to_i16, to_u16. intros Hr.
  replace ((r + bias_offset) mod 65536 - bias_offset + 32768)
    with ((r + bias_offset) mod 65536 + (32768 - bias_offset)) by ring.
  rewrite Z.add_mod_idemp_l by lia.
  replace (r + bias_offset + (32768 - bias_offset)) with (r + 32768) by ring.
  rewrite Z.mod_small by lia. ring.
Qed.

Lemma unbias_bias_residual (residual : list Z) (bias_offset : Z) :
  Forall is_i16 residual ->
  unbias_residual (bias_residual residual (List.length residual) bias_offset)
    (List.length residual) bias_offset = residual.
Proof.
  intros Hall. unfold unbias_residual, bias_residual.
  transitivity (for_pixels (List.length residual) (at_ residual));
    [| apply for_pixels_at].
  apply for_pixels_ext. intros i Hi.
  rewrite at_for_pixels by assumption.
  apply unbias_bias_one. now apply Forall_at.
Qed.

(** C10.  Shifting every quantized symbol of a frame into the unsigned
    domain by adding 32768 ([static_cast<uint16_t>(q + 32768)]) and shifting
    back by subtracting 32768 ([static_cast<int16_t>(u - 32768)]), as the
    two loops of [encode_residual_frame] do, returns the symbols unchanged
    for all [int16_t] values, from -32768 to 32767. *)
Theorem to_signed_to_unsigned_32768 (quantized : list Z) (pixel_count : nat) :
  List.length quantized = pixel_count ->
  Forall is_i16 quantized ->
  to_signed_32768 (to_unsigned_32768 quantized pixel_count) pixel_count = quantized.
Proof.
  intros Hlen Hall. subst pixel_count.
  unfold to_signed_32768, to_unsigned_32768.
  transitivity (for_pixels (List.length quantized) (at_ quantized));
    [| apply for_pixels_at].
  apply for_pixels_ext. intros i Hi.
  rewrite at_for_pixels by assumption.
  apply to_i16_to_u16_32768. now apply Forall_at.
Qed.

Lemma to_signed_to_unsigned_32768_extremes :
  List.length [-32768; -1025; 0; 1024; 32767] = 5%nat /\
  Forall is_i16 [-32768; -1025; 0; 1024; 32767] /\
  to_signed_32768 (to_unsigned_32768 [-32768; -1025; 0; 1024; 32767] 5) 5
    = [-32768; -1025; 0; 1024; 32767].
Proof.
  split; [reflexivity|]. split.
  - repeat constructor; unfold is_i16; lia.
  - apply (to_signed_to_unsigned_32768 [-32768; -1025; 0; 1024; 32767] 5).
    + reflexivity.
    + repeat constructor; unfold is_i16; lia.
Defined.

(** ** Quantization *)

(** C3.  The single-pixel scenario on the code: Q = 2, T = 2, fp = 8 give
    [quant_Q_fixed] 512; the residual of 1005 against 1000 is 5; its
    dead-zoned magnitude is 3 and the quantizer computes
    (3 * 256 + 128) / 512 = 1, not 2; symbol 1 dequantizes to 2 + 1 = 3, and
    the reconstructed pixel is 1003, not 1005.  (Symbol 2 would dequantize
    to 5.) *)
Theorem single_pixel_change_on_code :
  let params := QuantizationParams_ctor 2 2%float 8 in
  quant_Q_fixed params = 512 /\
  compute_residual [1005] [1000] 1 = [5] /\
  quantize_residual [5] 1 params = [1] /\
  dequantize_residual [1] 1 params = [3] /\
  reconstruct_frame [3] [1000] 1 = [1003] /\
  dequantize_residual [2] 1 params = [5].
Proof. vm_compute. repeat split; reflexivity. Qed.

(** C4.  The round-trip bound on the code at T = 0, Q = 4, fp = 8: the
    residual 3 quantizes to (3 * 256 + 128) / 1024 = 0 and dequantizes to 0,
    an error of 3, above T + ceil(Q/2) = 2. *)
Theorem roundtrip_error_at_Q4_exceeds_bound :
  let params := QuantizationParams_ctor 0 4%float 8 in
  quant_Q_fixed params = 1024 /\
  quantize_one params 3 = 0 /\
  dequantize_one params (quantize_one params 3) = 0 /\
  ~ (Z.abs (3 - dequantize_one params (quantize_one params 3))
       <= dead_zone_T params + (4 + 1) / 2).
Proof.
  vm_compute. repeat split; try reflexivity.
  intros H. apply H. reflexivity.
Qed.

(** *** The quantizer without its casts *)

Lemma to_u32_small z : 0 <= z < 4294967296 -> to_u32 z = z.
Proof. intros H. unfold to_u32. now apply Z.mod_small. Qed.

Lemma to_i32_small z : -2147483648 <= z < 2147483648 -> to_i32 z = z.
Proof. intros H. unfold to_i32. rewrite Z.mod_small by lia. ring. Qed.

Lemma to_i16_small z : is_i16 z -> to_i16 z = z.
Proof. unfold is_i16, to_i16. intros H. rewrite Z.mod_small by lia. ring. Qed.

Lemma pow2_fp_bounds fp : 1 <= fp <= 16 ->
  2 ^ fp = 2 * 2 ^ (fp - 1) /\ 1 <= 2 ^ (fp - 1) <= 32768.
Proof.
  intros H. split.
  - rewrite <- Z.pow_succ_r by lia. f_equal. lia.
  - split.
    + pose proof (Z.pow_pos_nonneg 2 (fp - 1)). lia.
    + change 32768 with (2 ^ 15). apply Z.pow_le_mono_r; lia.
Qed.


Lemma quantize_one_small params r :
  is_i16 r ->
  0 <= dead_zone_T params < 32768 ->
  1 <= fp_bits params <= 16 ->
  2 ^ fp_bits params <= quant_Q_fixed params < 4294967296 ->
  let q_abs := (a2_of (dead_zone_T params) r * 2 ^ fp_bits params + 2 ^ (fp_bits params - 1))
                 / quant_Q_fixed params in
  quantize_one params r = (if 0 <=? r then 1 else -1) * q_abs
  /\ 0 <= q_abs <= a2_of (dead_zone_T params) r.
Proof.
  intros Hr HT Hfp HQ. unfold is_i16 in Hr.
  destruct (pow2_fp_bounds _ Hfp) as [HP [Hh1 Hh2]].
  set (P := 2 ^ fp_bits params) in *. set (H := 2 ^ (fp_bits params - 1)) in *.
  set (T := dead_zone_T params) in *. set (Qf := quant_Q_fixed params) in *.
  assert (Ha2 : 0 <= a2_of T r <= 32768 /\ (0 <= r -> a2_of T r <= 32767)).
  { unfold a2_of. destruct (Z.ltb_spec T (Z.abs r)); lia. }
  destruct Ha2 as [Ha2 Ha2p].
  set (a2 := a2_of T r) in *.
  intros q_abs.
  assert (HaP : 0 <= a2 * P <= 32768 * 65536).
  { split; [apply Z.mul_nonneg_nonneg; lia|apply Z.mul_le_mono_nonneg; lia]. }
  assert (HaQ : a2 * P <= Qf * a2).
  { rewrite (Z.mul_comm Qf a2). apply Z.mul_le_mono_nonneg_l; lia. }
  assert (Hq : 0 <= q_abs <= a2).
  { split.
    - apply Z.div_pos; lia.
    - enough (q_abs < a2 + 1) by lia.
      apply Z.div_lt_upper_bound; lia. }
  split; [|exact Hq].
  unfold quantize_one. fold T Qf.
  rewrite (to_u32_small (fp_bits params - 1)) by lia.
  unfold shl32.
  replace (fp_bits params - 1 <? 32) with true by (symmetry; apply Z.ltb_lt; lia).
  replace (fp_bits params <? 32) with true by (symmetry; apply Z.ltb_lt; lia).
  rewrite !Z.shiftl_mul_pow2 by lia. fold P H.
  rewrite (to_u32_small (Z.abs r)) by lia.
  fold (a2_of T r). fold a2.
  rewrite (to_u32_small (1 * H)) by lia.
  rewrite (to_u32_small (a2 * P)) by lia.
  rewrite (to_u32_small (a2 * P + 1 * H)) by lia.
  replace (a2 * P + 1 * H) with (a2 * P + H) by ring. fold q_abs.
  rewrite to_i32_small by lia.
  apply to_i16_small. unfold is_i16.
  destruct (Z.leb_spec 0 r); [specialize (Ha2p ltac:(lia))|]; lia.
Qed.

Lemma dequantize_one_small params (s q_abs : Z) :
  (s = 1 \/ s = -1) ->
  0 <= dead_zone_T params < 32768 ->
  1 <= fp_bits params <= 16 ->
  1 <= q_abs <= 32768 ->
  0 <= q_abs * quant_Q_fixed params < 4294967296 ->
  let recon := q_abs * quant_Q_fixed params / 2 ^ fp_bits params + dead_zone_T params / 2 in
  (s = 1 -> recon <= 32767) -> recon <= 32768 ->
  dequantize_one params (s * q_abs) = s * recon.
Proof.
  intros Hs HT Hfp Hq Hmul recon Hpos Hall.
  assert (Hdiv : 0 <= q_abs * quant_Q_fixed params / 2 ^ fp_bits params).
  { apply Z.div_pos; [lia|]. apply Z.pow_pos_nonneg; lia. }
  assert (HT2 : 0 <= dead_zone_T params / 2) by (apply Z.div_pos; lia).
  unfold dequantize_one.
  replace (s * q_abs =? 0) with false
    by (symmetry; apply Z.eqb_neq; destruct Hs; subst s; lia).
  replace (Z.abs (s * q_abs)) with q_abs by (destruct Hs; subst s; lia).
  rewrite (to_u32_small q_abs) by lia.
  rewrite (to_u32_small (q_abs * _)) by lia.
  unfold shr32.
  replace (fp_bits params <? 32) with true by (symmetry; apply Z.ltb_lt; lia).
  rewrite Z.shiftr_div_pow2 by lia. fold recon.
  rewrite (to_u32_small recon) by (subst recon; lia).
  rewrite to_i32_small by (subst recon; lia).
  replace (if 0 <=? s * q_abs then 1 else -1) with s
    by (destruct (Z.leb_spec 0 (s * q_abs)); destruct Hs; subst s; lia).
  apply to_i16_small. unfold is_i16.
  destruct Hs; subst s; [specialize (Hpos eq_refl)|]; subst recon; lia.
Qed.

(** What the code does guarantee: for every [int16_t] residual, a dead-zone
    below 2^15, 1 to 16 fractional bits and a step of at least 1, the
    round-trip error stays below T + Q + 1/2 (in units of 2^-fp:
    2 * 2^fp * error < 2 * (2^fp * T + Q_fixed) + 2^fp). *)
Lemma quantize_dequantize_error (params : QuantizationParams) (r : Z) :
  is_i16 r ->
  0 <= dead_zone_T params < 32768 ->
  1 <= fp_bits params <= 16 ->
  2 ^ fp_bits params <= quant_Q_fixed params < 4294967296 ->
  2 * 2 ^ fp_bits params * Z.abs (r - dequantize_one params (quantize_one params r))
    < 2 * (2 ^ fp_bits params * dead_zone_T params + quant_Q_fixed params)
      + 2 ^ fp_bits params.
Proof.
  intros Hr HT Hfp HQ.
  destruct (quantize_one_small params r Hr HT Hfp HQ) as [Hquant Hq].
  rewrite Hquant. clear Hquant.
  destruct (pow2_fp_bounds _ Hfp) as [HP [Hh1 Hh2]].
  unfold is_i16 in Hr.
  set (P := 2 ^ fp_bits params) in *. set (H := 2 ^ (fp_bits params - 1)) in *.
  set (T := dead_zone_T params) in *. set (Qf := quant_Q_fixed params) in *.
  assert (Ha2 : a2_of T r = (if T <? Z.abs r then Z.abs r - T else 0)) by reflexivity.
  set (a2 := a2_of T r) in *.
  set (q_abs := (a2 * P + H) / Qf) in *.
  pose proof (Z.mul_div_le (a2 * P + H) Qf ltac:(lia)) as Hlow.
  pose proof (Z.mul_succ_div_gt (a2 * P + H) Qf ltac:(lia)) as Hhigh.
  fold q_abs in Hlow, Hhigh.
  assert (Ha2b : 0 <= a2 <= 32768 /\ (0 <= r -> a2 <= 32767)).
  { rewrite Ha2. destruct (Z.ltb_spec T (Z.abs r)); lia. }
  destruct Ha2b as [Ha2b Ha2p].
  assert (HaP : 0 <= a2 * P <= 32768 * 65536).
  { split; [apply Z.mul_nonneg_nonneg; lia|apply Z.mul_le_mono_nonneg; lia]. }
  set (s := if 0 <=? r then 1 else -1).
  assert (Hs : s = 1 \/ s = -1) by (subst s; destruct (0 <=? r); auto).
  destruct (Z.eq_dec q_abs 0) as [Hz | Hnz].
  - rewrite Hz in *. replace (s * 0) with 0 by ring.
    unfold dequantize_one. cbn [Z.eqb].
    replace (r - 0) with r by ring.
    destruct (Z.ltb_spec T (Z.abs r)) as [Hgt | Hle].
    + lia.
    + assert (P * Z.abs r <= P * T) by (apply Z.mul_le_mono_nonneg_l; lia).
      lia.
  - assert (Hq1 : 1 <= q_abs) by lia.
    assert (Ha2pos : 1 <= a2) by lia.
    assert (Habs : Z.abs r = a2 + T) by (destruct (Z.ltb_spec T (Z.abs r)); lia).
    assert (HqQ : 0 <= q_abs * Qf) by (apply Z.mul_nonneg_nonneg; lia).
    pose proof (Z.mul_div_le (q_abs * Qf) P ltac:(lia)) as Hrlow.
    pose proof (Z.mul_succ_div_gt (q_abs * Qf) P ltac:(lia)) as Hrhigh.
    pose proof (Z.mul_div_le T 2 ltac:(lia)) as HTlow.
    pose proof (Z.mul_succ_div_gt T 2 ltac:(lia)) as HThigh.
    assert (Hdivnn : 0 <= q_abs * Qf / P) by (apply Z.div_pos; lia).
    assert (Hrecon : q_abs * Qf / P <= a2).
    { enough (q_abs * Qf / P < a2 + 1) by lia.
      apply Z.div_lt_upper_bound; lia. }
    assert (HPT : 0 <= P * (T / 2)) by (apply Z.mul_nonneg_nonneg; lia).
    rewrite (dequantize_one_small params s q_abs Hs HT Hfp); fold P Qf T.
    + replace (r - s * (q_abs * Qf / P + T / 2))
        with (s * (Z.abs r - (q_abs * Qf / P + T / 2)))
        by (subst s; destruct (Z.leb_spec 0 r); lia).
      replace (Z.abs (s * (Z.abs r - (q_abs * Qf / P + T / 2))))
        with (Z.abs r - (q_abs * Qf / P + T / 2)) by (destruct Hs; subst s; lia).
      rewrite Habs. lia.
    + lia.
    + lia.
    + intros Hs1. subst s. destruct (Z.leb_spec 0 r); lia.
    + lia.
Qed.

(** ** The frame codec *)

Section FrameCodecProperties.
Context {codec : CharLS}.

Lemma encode_residual_frame_no_reference enc frame near_lossless quant_params :
  reference_frame_initialized_ enc = false ->
  encode_residual_frame enc frame near_lossless quant_params = (Failed NoReference, enc).
Proof. intros H. unfold encode_residual_frame. now rewrite H. Qed.

Lemma encode_residual_frame_dimension_mismatch enc frame near_lossless quant_params :
  reference_frame_initialized_ enc = true ->
  Frame.width frame <> Frame.width (reference_frame_ enc)
  \/ Frame.height frame <> Frame.height (reference_frame_ enc) ->
  encode_residual_frame enc frame near_lossless quant_params
    = (Failed DimensionMismatch, enc).
Proof.
  intros Hinit Hdim. unfold encode_residual_frame. rewrite Hinit. cbn [negb].
  destruct Hdim as [Hw | Hh].
  - apply Z.eqb_neq in Hw. now rewrite Hw.
  - apply Z.eqb_neq in Hh. rewrite Hh. cbn [negb]. now rewrite orb_true_r.
Qed.

Lemma decode_frame_residual_no_reference enc compressed :
  CompressedFrame.is_keyframe compressed = false ->
  reference_frame_initialized_ enc = false ->
  decode_frame enc compressed = (Failed NoReference, enc).
Proof. intros Hk Hinit. unfold decode_frame. now rewrite Hk, Hinit. Qed.

Lemma reset_clears_reference enc :
  reference_frame_initialized_ (reset enc) = false
  /\ Frame.data (reference_frame_ (reset enc)) = [].
Proof. split; reflexivity. Qed.

End FrameCodecProperties.

(** C9.  Residual encoding fails with NoReference when the codec holds no
    reference and with DimensionMismatch when the frame's width or height
    differs from the reference's; decoding a residual record fails with
    NoReference when the codec holds no reference, in particular right
    after [reset]; in each of these failures the codec (its reference and
    its initialised flag) is returned unchanged. *)
Theorem residual_failures_keep_reference (codec : CharLS)
    (enc : FrameEncoder) (frame : Frame.t) (near_lossless : Z)
    (quant_params : QuantizationParams) (compressed : CompressedFrame.t) :
  (reference_frame_initialized_ enc = false ->
     encode_residual_frame enc frame near_lossless quant_params
       = (Failed NoReference, enc))
  /\ (reference_frame_initialized_ enc = true ->
      Frame.width frame <> Frame.width (reference_frame_ enc)
      \/ Frame.height frame <> Frame.height (reference_frame_ enc) ->
      encode_residual_frame enc frame near_lossless quant_params
        = (Failed DimensionMismatch, enc))
  /\ (CompressedFrame.is_keyframe compressed = false ->
      (reference_frame_initialized_ enc = false ->
         decode_frame enc compressed = (Failed NoReference, enc))
      /\ decode_frame (reset enc) compressed = (Failed NoReference, reset enc)).
Proof.
  split; [apply encode_residual_frame_no_reference|].
  split; [apply encode_residual_frame_dimension_mismatch|].
  intros Hk. split.
  - now apply decode_frame_residual_no_reference.
  - apply decode_frame_residual_no_reference; [assumption | reflexivity].
Qed.

Lemma residual_failures_on_concrete_codecs :
  encode_residual_frame (codec := raw_codec) FrameEncoder_ctor frame_1002 0 params_T2_Q2
    = (Failed NoReference, FrameEncoder_ctor)
  /\ encode_residual_frame (codec := raw_codec) codec_ref_1000 frame_ranged 0 params_T2_Q2
     = (Failed DimensionMismatch, codec_ref_1000)
  /\ decode_frame (codec := raw_codec) FrameEncoder_ctor record_residual_1002
     = (Failed NoReference, FrameEncoder_ctor)
  /\ decode_frame (codec := raw_codec) (reset codec_ref_1000) record_residual_1002
     = (Failed NoReference, reset codec_ref_1000).
Proof.
  pose proof (residual_failures_keep_reference raw_codec FrameEncoder_ctor frame_1002 0
                params_T2_Q2 record_residual_1002) as (Hno & _ & Hdec).
  pose proof (residual_failures_keep_reference raw_codec codec_ref_1000 frame_ranged 0
                params_T2_Q2 record_residual_1002) as (_ & Hdim & Hreset).
  split; [apply Hno; reflexivity|].
  split; [apply Hdim; [reflexivity | left; discriminate]|].
  split; [apply Hdec; reflexivity|].
  apply Hreset. reflexivity.
Defined.

(** C2.  [decode_frame] on a keyframe record: its result is the samples
    CharLS decodes from the byte string, as they are, under the record's
    metadata, whatever [use_range_map], [range_min] and [range_max] say; the
    codec, and so its reference frame and initialised flag, is returned
    unchanged. *)
Theorem decode_frame_intra_on_code (codec : CharLS)
    (enc : FrameEncoder) (compressed : CompressedFrame.t) :
  CompressedFrame.is_keyframe compressed = true ->
  snd (decode_frame enc compressed) = enc
  /\ forall samples,
       decode_charls_16bit (CompressedFrame.compressed_data compressed)
         (CompressedFrame.width compressed) (CompressedFrame.height compressed)
         = Some samples ->
       fst (decode_frame enc compressed)
         = Success (Frame.mk samples (CompressedFrame.width compressed)
                      (CompressedFrame.height compressed)
                      (CompressedFrame.timestamp compressed)
                      (CompressedFrame.frame_index compressed)).
Proof.
  intros Hk. unfold decode_frame. rewrite Hk. split.
  - now destruct (decode_charls_16bit _ _ _).
  - intros samples Hs. now rewrite Hs.
Qed.

(** The keyframe of [frame_ranged] in 12-bit mode: the encoder stores the
    inverse-mapped frame as its reference, a fresh decoder given the emitted
    record returns the 12-bit codes and stays without a reference, so the
    residual record that follows is refused. *)
Lemma decode_frame_intra_range_mapped :
  encode_intra_frame (codec := raw_codec) FrameEncoder_ctor frame_ranged 0 true
    = (Success record_ranged,
       mkFrameEncoder (Frame.mk [29134; 34436; 30000] 3 1 0 0) true)
  /\ CompressedFrame.is_keyframe record_ranged = true
  /\ CompressedFrame.use_range_map record_ranged = true
  /\ snd (decode_frame (codec := raw_codec) FrameEncoder_ctor record_ranged)
     = FrameEncoder_ctor
  /\ fst (decode_frame (codec := raw_codec) FrameEncoder_ctor record_ranged)
     = Success (Frame.mk [0; 4095; 669] 3 1 0 0)
  /\ reference_frame_initialized_
       (snd (decode_frame (codec := raw_codec) FrameEncoder_ctor record_ranged)) = false.
Proof.
  pose proof (decode_frame_intra_on_code raw_codec FrameEncoder_ctor record_ranged
                eq_refl) as [Hsame Hout].
  split; [vm_compute; reflexivity|].
  split; [reflexivity|]. split; [reflexivity|].
  split; [exact Hsame|].
  split; [apply Hout; vm_compute; reflexivity|].
  rewrite Hsame. reflexivity.
Defined.

(** C1.  Open-loop drift at NEAR=0.  Over any entropy coder that returns
    the one-symbol buffer [32768] unchanged, [encode_residual_frame] at
    NEAR=0 with T = 2, Q = 2 on the frame [1002] against the reference
    [1000] stores the input frame [1002] as its reference, while
    [decode_frame], started from the same reference [1000] and given the
    emitted record, reconstructs and stores [1000]: decode, unbias,
    dequantize, add and saturate yield 1000, the stored reference is 1002. *)
Theorem open_loop_reference_drift (codec : CharLS) (bytes : list Byte.byte) :
  charls_encode_from_buffer [32768] info_1x1_16 0 = Some bytes ->
  charls_read_header bytes = Some info_1x1_16 ->
  charls_decode_to_buffer bytes 1 = Some [32768] ->
  let output :=
    CompressedFrame.mk bytes 1 1 1 0 false 0 2%float 2 8 0 65535 false in
  encode_residual_frame codec_ref_1000 frame_1002 0 params_T2_Q2
    = (Success output, mkFrameEncoder (Frame.mk [1002] 1 1 0 1) true)
  /\ decode_frame codec_ref_1000 output
     = (Success (Frame.mk [1000] 1 1 0 1), mkFrameEncoder (Frame.mk [1000] 1 1 0 1) true).
Proof.
  intros Henc Hhdr Hdec output. split.
  - unfold encode_residual_frame.
    change (reference_frame_initialized_ codec_ref_1000) with true.
    change (Frame.width frame_1002) with 1. change (Frame.height frame_1002) with 1.
    change (Frame.width (reference_frame_ codec_ref_1000)) with 1.
    change (Frame.height (reference_frame_ codec_ref_1000)) with 1.
    cbn [Z.eqb negb orb Pos.eqb].
    replace (to_unsigned_32768 _ _) with [32768] by (vm_compute; reflexivity).
    unfold encode_charls_16bit.
    change (mk_frame_info (to_u32 1) (to_u32 1) 16 1) with info_1x1_16.
    rewrite Henc. cbn [Z.ltb Z.compare].
    subst output. vm_compute. reflexivity.
  - unfold decode_frame, decode_charls_16bit. subst output.
    cbn [CompressedFrame.is_keyframe CompressedFrame.compressed_data
         CompressedFrame.width CompressedFrame.height].
    change (reference_frame_initialized_ codec_ref_1000) with true.
    rewrite Hhdr. cbn [negb].
    change (Z.to_nat (1 * 1)) with 1%nat.
    cbn [fi_width fi_height fi_bits_per_sample info_1x1_16 Z.eqb Pos.eqb negb orb andb].
    rewrite Hdec. vm_compute. reflexivity.
Qed.

Lemma open_loop_reference_drift_stand_in :
  encode_residual_frame (codec := raw_codec) codec_ref_1000 frame_1002 0 params_T2_Q2
    = (Success record_residual_1002, mkFrameEncoder (Frame.mk [1002] 1 1 0 1) true)
  /\ decode_frame (codec := raw_codec) codec_ref_1000 record_residual_1002
     = (Success (Frame.mk [1000] 1 1 0 1), mkFrameEncoder (Frame.mk [1000] 1 1 0 1) true).
Proof.
  apply (open_loop_reference_drift raw_codec
           (CompressedFrame.compressed_data record_residual_1002));
    reflexivity.
Defined.

(** In general: whenever [encode_residual_frame] succeeds at NEAR=0 the
    stored reference is the input frame itself. *)
Lemma encode_residual_frame_open_loop (codec : CharLS) enc frame quant_params output enc' :
  encode_residual_frame enc frame 0 quant_params = (Success output, enc') ->
  Frame.data (reference_frame_ enc') = Frame.data frame.
Proof.
  unfold encode_residual_frame.
  destruct (negb (reference_frame_initialized_ enc)); [discriminate|].
  destruct (negb _ || negb _); [discriminate|].
  destruct (encode_charls_16bit _ _ _ _ _); [|discriminate].
  cbn [Z.ltb Z.compare]. intros H. injection H as _ <-. reflexivity.
Qed.

(** The closed-loop branch, for comparison: at NEAR > 0, and with
    quantization parameters that survive the trip through the record
    ([get_Q] and back through the constructor), [decode_frame] started from
    the encoder's previous state and given the emitted record ends in the
    very state the encoder ends in. *)
Lemma closed_loop_agreement (codec : CharLS) enc frame near_lossless quant_params
    output enc' :
  0 < near_lossless ->
  QuantizationParams_ctor (dead_zone_T quant_params) (get_Q quant_params)
    (fp_bits quant_params) = quant_params ->
  encode_residual_frame enc frame near_lossless quant_params = (Success output, enc') ->
  snd (decode_frame enc output) = enc'
  /\ exists decoded,
       fst (decode_frame enc output) = Success decoded
       /\ Frame.data decoded = Frame.data (reference_frame_ enc').
Proof.
  intros Hnear Hparams. unfold encode_residual_frame.
  destruct (reference_frame_initialized_ enc) eqn:Hinit; cbn [negb]; [|discriminate].
  destruct (negb _ || negb _); [discriminate|].
  destruct (encode_charls_16bit _ _ _ _ _) as [bytes|]; [|discriminate].
  apply Z.ltb_lt in Hnear. rewrite Hnear.
  destruct (decode_charls_16bit bytes _ _) as [decoded_unsigned|] eqn:Hdec;
    [|discriminate].
  intros H. injection H as <- <-.
  unfold decode_frame.
  cbn [CompressedFrame.is_keyframe CompressedFrame.compressed_data CompressedFrame.width
       CompressedFrame.height CompressedFrame.timestamp CompressedFrame.frame_index
       CompressedFrame.dead_zone_T CompressedFrame.quant_Q CompressedFrame.fp_bits].
  rewrite Hinit, Hdec, Hparams. cbn [negb fst snd].
  split; [reflexivity|]. eexists. split; reflexivity.
Qed.

Lemma closed_loop_agreement_params_T2_Q2 :
  QuantizationParams_ctor (dead_zone_T params_T2_Q2) (get_Q params_T2_Q2)
    (fp_bits params_T2_Q2) = params_T2_Q2.
Proof. vm_compute. reflexivity. Qed.

(** ** The decision engines: stage 3 *)

Lemma FrameMode_eqb_eq (a b : FrameMode) : FrameMode_eqb a b = true <-> a = b.
Proof. destruct a, b; cbn; split; congruence. Qed.

(** C5, as stated, fails after an intra frame.  On the default state of
    decision.cpp (last mode USE_INTRA, intra EMA 2.5, hysteresis 0.15,
    margin 0.3) and a rate proxy of 2.25, stage 3 chooses intra, since
    2.25 + 0.3 >= 2.5, although 2.25 + 0.3 is below the claimed threshold
    2.5 + 0.15. *)
Lemma stage3_after_intra_uses_plain_ema :
  let s := DecisionEngine.DecisionState_default in
  DecisionEngine.last_mode s = USE_INTRA
  /\ DecisionEngine.should_use_intra_rate s stats_quiet_2_25 = true
  /\ DecisionEngine.decide_mode s stats_quiet_2_25 1 = USE_INTRA
  /\ dge (PrimFloat.add (bps_res stats_quiet_2_25) (DecisionEngine.margin_bpp s))
         (PrimFloat.add (DecisionEngine.bps_intra_ema s) (DecisionEngine.hysteresis_bpp s))
     = false.
Proof. vm_compute. repeat split; reflexivity. Qed.

(** C5, amended.  In stage 3 of decision.cpp ([should_use_intra_rate]) the
    threshold is the intra EMA minus [hysteresis_bpp] when the last mode was
    USE_RESIDUAL and the intra EMA itself when the last mode was USE_INTRA;
    intra is chosen if and only if [bps_res + margin_bpp >= threshold], and
    that is the decision of [decide_mode] whenever stages 1 and 2 do not
    force intra.  In stage 3 of config.cpp, reached with an initialised EMA,
    the threshold is the keyframe EMA minus [decision_hysteresis_bpp] after
    USE_INTRA and plus it after USE_RESIDUAL, and intra is chosen if and
    only if the residual EMA is strictly greater. *)
Theorem stage3_rate_rules (s : DecisionEngine.DecisionState)
    (e : ConfigEngine.FrameDecisionEngine) (stats : ResidualStats) (frame_index : Z) :
  (DecisionEngine.last_mode s = USE_RESIDUAL ->
     DecisionEngine.should_use_intra_rate s stats
     = dge (PrimFloat.add (bps_res stats) (DecisionEngine.margin_bpp s))
           (PrimFloat.sub (DecisionEngine.bps_intra_ema s) (DecisionEngine.hysteresis_bpp s)))
  /\ (DecisionEngine.last_mode s = USE_INTRA ->
      DecisionEngine.should_use_intra_rate s stats
      = dge (PrimFloat.add (bps_res stats) (DecisionEngine.margin_bpp s))
            (DecisionEngine.bps_intra_ema s))
  /\ (DecisionEngine.should_force_periodic s frame_index = false ->
      DecisionEngine.should_force_heuristic s stats = false ->
      (DecisionEngine.decide_mode s stats frame_index = USE_INTRA
       <-> DecisionEngine.should_use_intra_rate s stats = true))
  /\ (to_u32 (ConfigEngine.frames_since_keyframe_ e + 1)
        < ConfigEngine.gop_period (ConfigEngine.config_ e) ->
      ConfigEngine.stage2_heuristic e stats = false ->
      (fst (ConfigEngine.decide_mode e stats frame_index) = USE_INTRA
       <-> ConfigEngine.ema_initialized_ e = true
           /\ dgt (ConfigEngine.ema_residual_bpp_ e)
                (match ConfigEngine.last_decision_ e with
                 | USE_INTRA =>
                     PrimFloat.sub (ConfigEngine.ema_keyframe_bpp_ e)
                       (ConfigEngine.decision_hysteresis_bpp (ConfigEngine.config_ e))
                 | USE_RESIDUAL =>
                     PrimFloat.add (ConfigEngine.ema_keyframe_bpp_ e)
                       (ConfigEngine.decision_hysteresis_bpp (ConfigEngine.config_ e))
                 end) = true)).
Proof.
  split; [|split; [|split]].
  - intros Hm. unfold DecisionEngine.should_use_intra_rate. now rewrite Hm.
  - intros Hm. unfold DecisionEngine.should_use_intra_rate. now rewrite Hm.
  - intros H1 H2. unfold DecisionEngine.decide_mode. rewrite H1, H2.
    destruct (DecisionEngine.should_use_intra_rate s stats); split; congruence.
  - intros H1 H2. unfold ConfigEngine.decide_mode.
    unfold ConfigEngine.stage1_periodic at 1. cbn [ConfigEngine.frames_since_keyframe_
      ConfigEngine.config_].
    apply Z.leb_gt in H1. rewrite H1.
    unfold ConfigEngine.stage2_heuristic in *. cbn [ConfigEngine.config_] in *.
    rewrite H2.
    unfold ConfigEngine.stage3_rate, ConfigEngine.stage3_threshold.
    cbn [ConfigEngine.ema_initialized_ ConfigEngine.ema_residual_bpp_
         ConfigEngine.last_decision_ ConfigEngine.ema_keyframe_bpp_ ConfigEngine.config_].
    destruct (ConfigEngine.ema_initialized_ e); cbn [andb fst].
    + destruct (dgt (ConfigEngine.ema_residual_bpp_ e) _); cbn [fst]; split; intros H;
        first [ now split | congruence | destruct H; congruence ].
    + split; intros H; [discriminate | destruct H; discriminate].
Qed.

Lemma stage3_rate_rules_on_defaults :
  DecisionEngine.should_use_intra_rate DecisionEngine.DecisionState_default stats_quiet_2_25
    = dge (PrimFloat.add 2.25%float 0x1.3333333333333p-2%float) 2.5%float
  /\ (DecisionEngine.decide_mode DecisionEngine.DecisionState_default stats_quiet_2_25 1
        = USE_INTRA
      <-> DecisionEngine.should_use_intra_rate DecisionEngine.DecisionState_default
            stats_quiet_2_25 = true).
Proof.
  pose proof (stage3_rate_rules DecisionEngine.DecisionState_default
                (ConfigEngine.FrameDecisionEngine_ctor config_gop3)
                stats_quiet_2_25 1) as (_ & Hintra & Hdecide & _).
  split.
  - apply Hintra. reflexivity.
  - apply Hdecide; vm_compute; reflexivity.
Defined.

(** ** The decision engines: stage 2 *)

(** C6, as stated, fails in both engines.  decision.cpp never looks at the
    entropy: a quiet frame with 7 bits of entropy, above any of the
    documented maxima of 6, is not forced.  config.cpp never looks at
    [zero_mass] or [mean_abs]: a frame with no residual in the dead-zone and
    a mean magnitude of 20 is not forced and, behind an engine just
    constructed, is coded as a residual. *)
Lemma stage2_ignores_some_statistics :
  dgt (entropy stats_entropy_7) 6%float = true
  /\ DecisionEngine.should_force_heuristic DecisionEngine.DecisionState_default
       stats_entropy_7 = false
  /\ dlt (zero_mass stats_busy_mean) 0.75%float = true
  /\ dgt (mean_abs stats_busy_mean) 12%float = true
  /\ ConfigEngine.stage2_heuristic
       (ConfigEngine.FrameDecisionEngine_ctor ConfigEngine.CompressionConfig_default)
       stats_busy_mean = false
  /\ fst (ConfigEngine.decide_mode
            (ConfigEngine.FrameDecisionEngine_ctor ConfigEngine.CompressionConfig_default)
            stats_busy_mean 1) = USE_RESIDUAL.
Proof. vm_compute. repeat split; reflexivity. Qed.

(** C6, amended.  Stage 2 of decision.cpp ([should_force_heuristic]) forces
    USE_INTRA if and only if [zero_mass < zero_mass_min], or
    [mean_abs > mean_abs_max], or [p95 > p95_max], or [p99 > p99_max]; when
    stage 1 does not fire and stage 2 does, [decide_mode] returns USE_INTRA.
    Stage 2 of config.cpp forces USE_INTRA if and only if
    [p95 > decision_p95_threshold], or [p99 > decision_p99_threshold], or
    [entropy > decision_entropy_threshold]; when stage 1 does not fire and
    stage 2 does, [decide_mode] returns USE_INTRA. *)
Theorem stage2_heuristic_rules (s : DecisionEngine.DecisionState)
    (e : ConfigEngine.FrameDecisionEngine) (stats : ResidualStats) (frame_index : Z) :
  (DecisionEngine.should_force_heuristic s stats = true
   <-> dlt (zero_mass stats) (DecisionEngine.zero_mass_min s) = true
       \/ dgt (mean_abs stats) (DecisionEngine.mean_abs_max s) = true
       \/ dgt (p95 stats) (DecisionEngine.p95_max s) = true
       \/ dgt (p99 stats) (DecisionEngine.p99_max s) = true)
  /\ (DecisionEngine.should_force_periodic s frame_index = false ->
      DecisionEngine.should_force_heuristic s stats = true ->
      DecisionEngine.decide_mode s stats frame_index = USE_INTRA)
  /\ (ConfigEngine.stage2_heuristic e stats = true
      <-> dgt (p95 stats) (ConfigEngine.decision_p95_threshold (ConfigEngine.config_ e)) = true
          \/ dgt (p99 stats) (ConfigEngine.decision_p99_threshold (ConfigEngine.config_ e)) = true
          \/ dgt (entropy stats)
               (ConfigEngine.decision_entropy_threshold (ConfigEngine.config_ e)) = true)
  /\ (to_u32 (ConfigEngine.frames_since_keyframe_ e + 1)
        < ConfigEngine.gop_period (ConfigEngine.config_ e) ->
      ConfigEngine.stage2_heuristic e stats = true ->
      fst (ConfigEngine.decide_mode e stats frame_index) = USE_INTRA).
Proof.
  split; [|split; [|split]].
  - unfold DecisionEngine.should_force_heuristic.
    destruct (dlt (zero_mass stats) _); [intuition congruence|].
    destruct (dgt (mean_abs stats) _); [intuition congruence|].
    destruct (dgt (p95 stats) _); [cbn [orb]; intuition congruence|].
    destruct (dgt (p99 stats) _); cbn [orb]; intuition congruence.
  - intros H1 H2. unfold DecisionEngine.decide_mode. now rewrite H1, H2.
  - unfold ConfigEngine.stage2_heuristic.
    rewrite !orb_true_iff. tauto.
  - intros H1 H2. unfold ConfigEngine.decide_mode.
    unfold ConfigEngine.stage1_periodic at 1.
    cbn [ConfigEngine.frames_since_keyframe_ ConfigEngine.config_].
    apply Z.leb_gt in H1. rewrite H1.
    unfold ConfigEngine.stage2_heuristic in *. cbn [ConfigEngine.config_] in *.
    now rewrite H2.
Qed.

Lemma stage2_heuristic_rules_on_p99_200 :
  DecisionEngine.decide_mode DecisionEngine.DecisionState_default stats_p99_200 1 = USE_INTRA
  /\ fst (ConfigEngine.decide_mode
            (ConfigEngine.FrameDecisionEngine_ctor ConfigEngine.CompressionConfig_default)
            stats_p99_200 1) = USE_INTRA.
Proof.
  pose proof (stage2_heuristic_rules DecisionEngine.DecisionState_default
                (ConfigEngine.FrameDecisionEngine_ctor ConfigEngine.CompressionConfig_default)
                stats_p99_200 1) as (_ & Hd & _ & Hc).
  split.
  - apply Hd; vm_compute; reflexivity.
  - apply Hc; vm_compute; reflexivity.
Defined.

(** ** The EMA update *)

(** Once the shared flag is set, [update_stats] blends the sample into the
    EMA of its kind with weight [alpha] = 0.1 and leaves the other EMA. *)
Lemma update_stats_blend (e : ConfigEngine.FrameDecisionEngine) (compressed_bytes : Z) :
  ConfigEngine.ema_initialized_ e = true ->
  (ConfigEngine.ema_keyframe_bpp_ (ConfigEngine.update_stats e compressed_bytes true)
     = ConfigEngine.ema_blend (ConfigEngine.bits_per_pixel compressed_bytes)
         (ConfigEngine.ema_keyframe_bpp_ e)
   /\ ConfigEngine.ema_residual_bpp_ (ConfigEngine.update_stats e compressed_bytes true)
      = ConfigEngine.ema_residual_bpp_ e)
  /\ (ConfigEngine.ema_residual_bpp_ (ConfigEngine.update_stats e compressed_bytes false)
        = ConfigEngine.ema_blend (ConfigEngine.bits_per_pixel compressed_bytes)
            (ConfigEngine.ema_residual_bpp_ e)
      /\ ConfigEngine.ema_keyframe_bpp_ (ConfigEngine.update_stats e compressed_bytes false)
         = ConfigEngine.ema_keyframe_bpp_ e).
Proof.
  intros H. unfold ConfigEngine.update_stats. rewrite H. cbn. repeat split.
Qed.

(** C7.  The EMA update on the code, for a 320x256 keyframe of 40960
    compressed bytes followed by a residual frame of 20480 bytes.
    [update_stats] is given no frame size and divides by 640*512: the
    keyframe sample is 327680/327680 = 1 bit per pixel, where
    8*bytes/(W*H) is 4.  The flag [ema_initialized_] is shared by the two
    EMAs, so the first residual sample (0.5 by the same division) is not
    stored directly but blended with the initial 0: the residual EMA becomes
    0.1 * 0.5 + 0.9 * 0, which is not 0.5. *)
Theorem update_stats_on_320x256_frames :
  let e0 := ConfigEngine.FrameDecisionEngine_ctor ConfigEngine.CompressionConfig_default in
  let e1 := ConfigEngine.update_stats e0 40960 true in
  let e2 := ConfigEngine.update_stats e1 20480 false in
  ConfigEngine.ema_keyframe_bpp_ e1 = 1%float
  /\ PrimFloat.div (PrimFloat.mul (Z2double 40960) 8%float) (Z2double (320 * 256)) = 4%float
  /\ ConfigEngine.ema_initialized_ e1 = true
  /\ ConfigEngine.bits_per_pixel 20480 = 0.5%float
  /\ ConfigEngine.ema_residual_bpp_ e2 = ConfigEngine.ema_blend 0.5%float 0%float
  /\ PrimFloat.eqb (ConfigEngine.ema_residual_bpp_ e2) 0.5%float = false.
Proof. vm_compute. repeat split; reflexivity. Qed.

(** ** The periodic stage and the keyframe period *)

Module Periodic.
Import ConfigEngine.

Lemma update_stats_keeps_counter e compressed_bytes was_keyframe :
  config_ (update_stats e compressed_bytes was_keyframe) = config_ e
  /\ frames_since_keyframe_ (update_stats e compressed_bytes was_keyframe)
     = frames_since_keyframe_ e.
Proof.
  unfold update_stats.
  destruct (ema_initialized_ e), was_keyframe; cbn; auto.
Qed.

Lemma decide_mode_counter e stats frame_index :
  gop_period (config_ e) < 4294967296 ->
  since_key_ok e ->
  config_ (snd (decide_mode e stats frame_index)) = config_ e
  /\ ((fst (decide_mode e stats frame_index) = USE_INTRA
       /\ frames_since_keyframe_ (snd (decide_mode e stats frame_index)) = 0)
      \/ (fst (decide_mode e stats frame_index) = USE_RESIDUAL
          /\ frames_since_keyframe_ (snd (decide_mode e stats frame_index))
             = frames_since_keyframe_ e + 1
          /\ frames_since_keyframe_ e + 1 < gop_period (config_ e))).
Proof.
  intros Hg [Hlo Hhi]. unfold decide_mode.
  assert (Hwrap : to_u32 (frames_since_keyframe_ e + 1) = frames_since_keyframe_ e + 1)
    by (unfold to_u32; apply Z.mod_small; lia).
  rewrite Hwrap.
  unfold stage1_periodic. cbn [frames_since_keyframe_ config_].
  destruct (Z.leb_spec (gop_period (config_ e)) (frames_since_keyframe_ e + 1)) as [Hge | Hlt].
  - cbn. auto.
  - destruct (stage2_heuristic _ stats); [cbn; auto|].
    destruct (stage3_rate _); cbn; auto.
Qed.

Lemma pipeline_frame_counter e i stats compressed_bytes :
  gop_period (config_ e) < 4294967296 ->
  since_key_ok e ->
  let r := pipeline_frame e i stats compressed_bytes in
  config_ (snd r) = config_ e
  /\ since_key_ok (snd r)
  /\ (fst r = USE_RESIDUAL ->
      frames_since_keyframe_ (snd r) = frames_since_keyframe_ e + 1).
Proof.
  intros Hg Hok. unfold pipeline_frame.
  destruct (0 <? i).
  - pose proof (decide_mode_counter e stats i Hg Hok) as [Hcfg Hcase].
    destruct (decide_mode e stats i) as [mode e1]. cbn [fst snd] in *.
    destruct (update_stats_keeps_counter e1 compressed_bytes
                (FrameMode_eqb mode USE_INTRA)) as [Hc Hs].
    unfold since_key_ok in *. rewrite Hc, Hs, Hcfg.
    destruct Hcase as [[Hm Hz] | [Hm [Hs1 Hlt]]]; rewrite ?Hz, ?Hs1;
      repeat split; try lia; intros; congruence.
  - cbn [fst snd].
    destruct (update_stats_keeps_counter e compressed_bytes
                (FrameMode_eqb USE_INTRA USE_INTRA)) as [Hc Hs].
    unfold since_key_ok in *. rewrite Hc, Hs.
    repeat split; try lia; intros; discriminate.
Qed.

(** A run of residual decisions at the head of the trace is shorter than
    what the counter leaves of the period. *)
Lemma leading_residuals rs : forall e i frames post,
  gop_period (config_ e) < 4294967296 ->
  since_key_ok e ->
  pipeline_modes e i frames = rs ++ post ->
  Forall (eq USE_RESIDUAL) rs ->
  Z.of_nat (List.length rs) + frames_since_keyframe_ e < gop_period (config_ e).
Proof.
  induction rs as [|r rs IH]; intros e i frames post Hg Hok Hrun Hall.
  - cbn. unfold since_key_ok in Hok. lia.
  - inversion Hall as [|? ? Hr Hall']; subst.
    destruct frames as [|[stats compressed_bytes] frames]; [discriminate|].
    cbn [pipeline_modes] in Hrun.
    pose proof (pipeline_frame_counter e i stats compressed_bytes Hg Hok)
      as (Hcfg & Hok1 & Hres).
    destruct (pipeline_frame e i stats compressed_bytes) as [mode e1].
    cbn [fst snd] in *. cbn [app] in Hrun.
    injection Hrun as Hmode Hrest.
    specialize (Hres Hmode).
    assert (Hg1 : gop_period (config_ e1) < 4294967296) by (rewrite Hcfg; exact Hg).
    specialize (IH e1 (i + 1) frames post Hg1 Hok1 Hrest Hall').
    rewrite Hcfg, Hres in IH. cbn [List.length]. lia.
Qed.

Lemma residual_runs pre : forall e i frames rs post,
  gop_period (config_ e) < 4294967296 ->
  since_key_ok e ->
  pipeline_modes e i frames = pre ++ rs ++ post ->
  Forall (eq USE_RESIDUAL) rs ->
  Z.of_nat (List.length rs) < gop_period (config_ e).
Proof.
  induction pre as [|p pre IH]; intros e i frames rs post Hg Hok Hrun Hall.
  - pose proof (leading_residuals rs e i frames post Hg Hok Hrun Hall) as H.
    unfold since_key_ok in Hok. lia.
  - destruct frames as [|[stats compressed_bytes] frames]; [discriminate|].
    cbn [pipeline_modes] in Hrun.
    pose proof (pipeline_frame_counter e i stats compressed_bytes Hg Hok)
      as (Hcfg & Hok1 & _).
    destruct (pipeline_frame e i stats compressed_bytes) as [mode e1].
    cbn [fst snd] in *. cbn [app] in Hrun.
    injection Hrun as _ Hrest.
    assert (Hg1 : gop_period (config_ e1) < 4294967296) by (rewrite Hcfg; exact Hg).
    rewrite <- Hcfg. exact (IH e1 (i + 1) frames rs post Hg1 Hok1 Hrest Hall).
Qed.

(** Wherever [decide_mode] answers USE_INTRA it has reset the counter. *)
Lemma decide_mode_intra_resets e stats frame_index :
  fst (decide_mode e stats frame_index) = USE_INTRA ->
  frames_since_keyframe_ (snd (decide_mode e stats frame_index)) = 0.
Proof.
  unfold decide_mode.
  destruct (stage1_periodic _); [reflexivity|].
  destruct (stage2_heuristic _ _); [reflexivity|].
  destruct (stage3_rate _); [reflexivity|].
  cbn. discriminate.
Qed.

Lemma decide_mode_stage1 e stats frame_index :
  gop_period (config_ e) <= to_u32 (frames_since_keyframe_ e + 1) ->
  fst (decide_mode e stats frame_index) = USE_INTRA.
Proof.
  intros H. unfold decide_mode. unfold stage1_periodic at 1.
  cbn [frames_since_keyframe_ config_].
  apply Z.leb_le in H. now rewrite H.
Qed.

End Periodic.

(** The periodic test of decision.cpp. *)
Lemma should_force_periodic_iff (s : DecisionEngine.DecisionState) (frame_index : Z) :
  DecisionEngine.should_force_periodic s frame_index = true
  <-> frame_index mod DecisionEngine.gop_period s = 0
      \/ DecisionEngine.gop_max s <= DecisionEngine.frames_since_key s.
Proof.
  unfold DecisionEngine.should_force_periodic.
  rewrite orb_true_iff, Z.eqb_eq, Z.leb_le. tauto.
Qed.

(** On consecutive frame indices the engine of decision.cpp, whatever its
    state at each frame, cannot answer USE_RESIDUAL [gop_period] times in a
    row: one of the indices is a multiple of the period. *)
Lemma decision_engine_residual_run (g : Z) (states : nat -> DecisionEngine.DecisionState)
    (stats : nat -> ResidualStats) (i0 : Z) (n : nat) :
  1 <= g ->
  (forall k, DecisionEngine.gop_period (states k) = g) ->
  (forall k, (k < n)%nat ->
     DecisionEngine.decide_mode (states k) (stats k) (i0 + Z.of_nat k) = USE_RESIDUAL) ->
  Z.of_nat n < g.
Proof.
  intros Hg Hper Hrun.
  destruct (Z.lt_ge_cases (Z.of_nat n) g) as [|Hge]; [assumption|exfalso].
  pose proof (Z.mod_pos_bound (- i0) g ltac:(lia)) as Hk.
  specialize (Hrun (Z.to_nat ((- i0) mod g)) ltac:(lia)).
  rewrite Z2Nat.id in Hrun by lia.
  unfold DecisionEngine.decide_mode in Hrun.
  assert (Hforce : DecisionEngine.should_force_periodic
                     (states (Z.to_nat ((- i0) mod g))) (i0 + (- i0) mod g) = true).
  { apply should_force_periodic_iff. left. rewrite Hper.
    rewrite Z.add_mod_idemp_r by lia.
    replace (i0 + - i0) with 0 by ring. apply Z.mod_0_l. lia. }
  rewrite Hforce in Hrun. discriminate.
Qed.

(** C8, as stated, fails in its account of stage 1.  In the pipeline's
    engine (config.cpp) the frame index is not tested: with a period of 3
    and a scene change at frame 1, frame 3 is coded as a residual although
    3 is a multiple of the period.  In decision.cpp the counter is tested
    against [gop_max], not [gop_period]: after 60 residual frames with
    [gop_period] 60 and [gop_max] 120, frame 61 of a still scene is
    USE_RESIDUAL. *)
Lemma stage1_is_not_the_claimed_test :
  pipeline_modes (ConfigEngine.FrameDecisionEngine_ctor config_gop3) 0 frames_scene_change
    = [USE_INTRA; USE_INTRA; USE_RESIDUAL; USE_RESIDUAL]
  /\ 3 mod ConfigEngine.gop_period config_gop3 = 0
  /\ DecisionEngine.gop_period state_since_60 <= DecisionEngine.frames_since_key state_since_60
  /\ DecisionEngine.should_force_periodic state_since_60 61 = false
  /\ DecisionEngine.decide_mode state_since_60 stats_still 61 = USE_RESIDUAL.
Proof. vm_compute. repeat split; try reflexivity. discriminate. Qed.

(** C8, amended.  For every sequence of decisions the pipeline obtains from
    its engine (config.cpp) on the consecutive frame indices 0, 1, 2, ...
    with a keyframe period of at least 1, every run of consecutive
    USE_RESIDUAL decisions is strictly shorter than [gop_period], so
    strictly fewer than [gop_period] residual decisions lie between two
    successive USE_INTRA decisions.  Stage 1 of that engine counts the frame
    and forces intra when the count has reached [gop_period]; the frame
    index is not consulted; the count is reset at every USE_INTRA answer.
    Stage 1 of decision.cpp forces intra exactly when the frame index is a
    multiple of [gop_period] or [frames_since_key >= gop_max]. *)
Theorem periodic_invariant_on_code
    (config : ConfigEngine.CompressionConfig) (frames : list (ResidualStats * Z))
    (pre rs post : list FrameMode)
    (e : ConfigEngine.FrameDecisionEngine) (stats : ResidualStats) (frame_index : Z)
    (s : DecisionEngine.DecisionState) :
  (1 <= ConfigEngine.gop_period config < 4294967296 ->
   pipeline_modes (ConfigEngine.FrameDecisionEngine_ctor config) 0 frames
     = pre ++ rs ++ post ->
   Forall (eq USE_RESIDUAL) rs ->
   Z.of_nat (List.length rs) < ConfigEngine.gop_period config)
  /\ (ConfigEngine.gop_period (ConfigEngine.config_ e)
        <= to_u32 (ConfigEngine.frames_since_keyframe_ e + 1) ->
      fst (ConfigEngine.decide_mode e stats frame_index) = USE_INTRA)
  /\ (fst (ConfigEngine.decide_mode e stats frame_index) = USE_INTRA ->
      ConfigEngine.frames_since_keyframe_
        (snd (ConfigEngine.decide_mode e stats frame_index)) = 0)
  /\ (DecisionEngine.should_force_periodic s frame_index = true
      <-> frame_index mod DecisionEngine.gop_period s = 0
          \/ DecisionEngine.gop_max s <= DecisionEngine.frames_since_key s).
Proof.
  split; [|split; [|split]].
  - intros Hg Hrun Hall.
    apply (Periodic.residual_runs pre (ConfigEngine.FrameDecisionEngine_ctor config)
             0 frames rs post); try assumption.
    + cbn. lia.
    + unfold since_key_ok. cbn. lia.
  - apply Periodic.decide_mode_stage1.
  - apply Periodic.decide_mode_intra_resets.
  - apply should_force_periodic_iff.
Qed.

(** The stationary sequence of ten frames with a period of 3: the trace is
    I R R I R R I R R I and a run of two residual decisions is shorter
    than 3. *)
Lemma periodic_invariant_on_stationary_frames :
  pipeline_modes (ConfigEngine.FrameDecisionEngine_ctor config_gop3) 0 frames_stationary
    = [USE_INTRA] ++ [USE_RESIDUAL; USE_RESIDUAL]
      ++ [USE_INTRA; USE_RESIDUAL; USE_RESIDUAL; USE_INTRA;
          USE_RESIDUAL; USE_RESIDUAL; USE_INTRA]
  /\ Z.of_nat (List.length [USE_RESIDUAL; USE_RESIDUAL]) < ConfigEngine.gop_period config_gop3.
Proof.
  assert (Hrun : pipeline_modes (ConfigEngine.FrameDecisionEngine_ctor config_gop3) 0
                   frames_stationary
                 = [USE_INTRA] ++ [USE_RESIDUAL; USE_RESIDUAL]
                   ++ [USE_INTRA; USE_RESIDUAL; USE_RESIDUAL; USE_INTRA;
                       USE_RESIDUAL; USE_RESIDUAL; USE_INTRA])
    by (vm_compute; reflexivity).
  split; [exact Hrun|].
  pose proof (periodic_invariant_on_code config_gop3 frames_stationary
                [USE_INTRA] [USE_RESIDUAL; USE_RESIDUAL]
                [USE_INTRA; USE_RESIDUAL; USE_RESIDUAL; USE_INTRA;
                 USE_RESIDUAL; USE_RESIDUAL; USE_INTRA]
                (ConfigEngine.FrameDecisionEngine_ctor config_gop3) stats_still 0
                DecisionEngine.DecisionState_default) as (Hinv & _).
  apply Hinv.
  - cbn. lia.
  - exact Hrun.
  - repeat constructor.
Defined.

(* ================================================================== *)
(** * Further properties of the residual arithmetic *)

Lemma to_i16_sub_to_i16 (a b : Z) : to_i16 (to_i16 a - to_i16 b) = to_i16 (a - b).
Proof.
  unfold to_i16.
  rewrite (Z.mod_eq (a + 32768) 65536), (Z.mod_eq (b + 32768) 65536) by lia.
  replace (a + 32768 - 65536 * ((a + 32768) / 65536) - 32768
           - (b + 32768 - 65536 * ((b + 32768) / 65536) - 32768) + 32768)
    with (a - b + 32768 + ((b + 32768) / 65536 - (a + 32768) / 65536) * 65536) by ring.
  now rewrite Z_mod_plus_full.
Qed.

Lemma residual_of_exact (cur prev : Z) :
  -32768 <= cur - prev <= 32767 -> residual_of cur prev = cur - prev.
Proof.
  intros H. unfold residual_of. rewrite to_i16_sub_to_i16.
  now apply to_i16_small.
Qed.

Lemma clamp_u16_id (v : Z) : is_u16 v -> to_u16 (clamp v 0 65535) = v.
Proof.
  unfold is_u16, clamp, to_u16. intros H.
  destruct (Z.ltb_spec v 0); [lia|]. destruct (Z.ltb_spec 65535 v); [lia|].
  apply Z.mod_small. lia.
Qed.

(** X1.  Difference and reconstruction are inverse: for 16-bit frames whose
    pixels move by less than 2^15 between two frames, adding the residual
    of [compute_residual] back to the previous frame with
    [reconstruct_frame] returns the current frame. *)
Theorem reconstruct_compute_residual (current previous : list Z) (pixel_count : nat) :
  List.length current = pixel_count ->
  Forall is_u16 current ->
  (forall i, (i < pixel_count)%nat ->
     -32768 <= at_ current i - at_ previous i <= 32767) ->
  reconstruct_frame (compute_residual current previous pixel_count) previous pixel_count
    = current.
Proof.
  intros Hlen Hcur Hdiff. subst pixel_count.
  unfold reconstruct_frame, compute_residual.
  transitivity (for_pixels (List.length current) (at_ current)); [|apply for_pixels_at].
  apply for_pixels_ext. intros i Hi.
  rewrite at_for_pixels by assumption.
  rewrite residual_of_exact by (apply Hdiff; assumption).
  replace (at_ previous i + (at_ current i - at_ previous i)) with (at_ current i) by ring.
  apply clamp_u16_id. now apply Forall_at.
Qed.

Lemma reconstruct_compute_residual_two_pixels :
  reconstruct_frame (compute_residual [40000; 12] [30000; 65] 2) [30000; 65] 2 = [40000; 12].
Proof.
  apply (reconstruct_compute_residual [40000; 12] [30000; 65] 2).
  - reflexivity.
  - repeat constructor; unfold is_u16; lia.
  - intros i Hi. destruct i as [|[|i]]; cbn; lia.
Defined.

(** The parameters the quantizer is built for: a dead-zone below 2^15, 1 to
    16 fractional bits, a step of at least 1 ([Q_fixed >= 2^fp]) that fits
    [uint32_t]. *)
Lemma quantize_one_dead_zone (params : QuantizationParams) (r : Z) :
  is_i16 r ->
  0 <= dead_zone_T params < 32768 ->
  1 <= fp_bits params <= 16 ->
  2 ^ fp_bits params <= quant_Q_fixed params < 4294967296 ->
  Z.abs r <= dead_zone_T params ->
  quantize_one params r = 0.
Proof.
  intros Hr HT Hfp HQ Hdz.
  destruct (quantize_one_small params r Hr HT Hfp HQ) as [Hq Hb].
  rewrite Hq.
  assert (Ha : a2_of (dead_zone_T params) r = 0)
    by (unfold a2_of; destruct (Z.ltb_spec (dead_zone_T params) (Z.abs r)); lia).
  assert (Hz : (a2_of (dead_zone_T params) r * 2 ^ fp_bits params
                + 2 ^ (fp_bits params - 1)) / quant_Q_fixed params = 0) by lia.
  rewrite Hz. ring.
Qed.

(** X2.  The quantized symbol carries the sign of the residual and a magnitude of
    at most [max(0, |r| - T)]: it always fits [int16_t]. *)
Theorem quantize_one_magnitude (params : QuantizationParams) (r : Z) :
  is_i16 r ->
  0 <= dead_zone_T params < 32768 ->
  1 <= fp_bits params <= 16 ->
  2 ^ fp_bits params <= quant_Q_fixed params < 4294967296 ->
  Z.abs (quantize_one params r) <= a2_of (dead_zone_T params) r
  /\ is_i16 (quantize_one params r)
  /\ (0 <= r -> 0 <= quantize_one params r)
  /\ (r <= 0 -> quantize_one params r <= 0).
Proof.
  intros Hr HT Hfp HQ.
  destruct (quantize_one_small params r Hr HT Hfp HQ) as [Hq Hb].
  rewrite Hq.
  set (q_abs := (a2_of (dead_zone_T params) r * 2 ^ fp_bits params
                 + 2 ^ (fp_bits params - 1)) / quant_Q_fixed params) in *.
  assert (Ha : a2_of (dead_zone_T params) r <= Z.abs r)
    by (unfold a2_of; destruct (Z.ltb_spec (dead_zone_T params) (Z.abs r)); lia).
  assert (Hz : r = 0 -> q_abs = 0).
  { intros ->. unfold a2_of in Hb. cbn in Hb.
    destruct (Z.ltb_spec (dead_zone_T params) 0); lia. }
  unfold is_i16 in *.
  destruct (Z.leb_spec 0 r).
  - repeat split; lia.
  - repeat split; lia.
Qed.

Lemma quantize_one_magnitude_at_minus_100 :
  Z.abs (quantize_one params_T2_Q2 (-100)) <= a2_of (dead_zone_T params_T2_Q2) (-100)
  /\ is_i16 (quantize_one params_T2_Q2 (-100))
  /\ (0 <= -100 -> 0 <= quantize_one params_T2_Q2 (-100))
  /\ (-100 <= 0 -> quantize_one params_T2_Q2 (-100) <= 0).
Proof.
  apply (quantize_one_magnitude params_T2_Q2 (-100)).
  - unfold is_i16; lia.
  - vm_compute; split; [discriminate | reflexivity].
  - vm_compute; split; discriminate.
  - vm_compute; split; [discriminate | reflexivity].
Defined.

(** The round trip through the quantizer keeps the sign of the residual and
    never enlarges it: the dequantized value is [s * m] with [s] the sign
    of [r] and [0 <= m <= |r|]. *)
Lemma dequantize_quantize_normal_form (params : QuantizationParams) (r : Z) :
  is_i16 r ->
  0 <= dead_zone_T params < 32768 ->
  1 <= fp_bits params <= 16 ->
  2 ^ fp_bits params <= quant_Q_fixed params < 4294967296 ->
  exists m,
    dequantize_one params (quantize_one params r) = (if 0 <=? r then 1 else -1) * m
    /\ 0 <= m <= Z.abs r.
Proof.
  intros Hr HT Hfp HQ.
  destruct (quantize_one_small params r Hr HT Hfp HQ) as [Hquant Hq].
  rewrite Hquant. clear Hquant.
  destruct (pow2_fp_bounds _ Hfp) as [HP [Hh1 Hh2]].
  unfold is_i16 in Hr.
  set (P := 2 ^ fp_bits params) in *. set (H := 2 ^ (fp_bits params - 1)) in *.
  set (T := dead_zone_T params) in *. set (Qf := quant_Q_fixed params) in *.
  assert (Ha2 : a2_of T r = (if T <? Z.abs r then Z.abs r - T else 0)) by reflexivity.
  set (a2 := a2_of T r) in *.
  set (q_abs := (a2 * P + H) / Qf) in *.
  pose proof (Z.mul_div_le (a2 * P + H) Qf ltac:(lia)) as Hlow.
  assert (Ha2b : 0 <= a2 <= 32768 /\ (0 <= r -> a2 <= 32767)).
  { rewrite Ha2. destruct (Z.ltb_spec T (Z.abs r)); lia. }
  destruct Ha2b as [Ha2b Ha2p].
  assert (HaP : 0 <= a2 * P <= 32768 * 65536).
  { split; [apply Z.mul_nonneg_nonneg; lia|apply Z.mul_le_mono_nonneg; lia]. }
  fold q_abs in Hlow.
  set (s := if 0 <=? r then 1 else -1).
  assert (Hs : s = 1 \/ s = -1) by (subst s; destruct (0 <=? r); auto).
  destruct (Z.eq_dec q_abs 0) as [Hz | Hnz].
  - exists 0. rewrite Hz. replace (s * 0) with 0 by ring.
    unfold dequantize_one. cbn [Z.eqb]. lia.
  - assert (Hq1 : 1 <= q_abs) by lia.
    assert (Habs : Z.abs r = a2 + T) by (destruct (Z.ltb_spec T (Z.abs r)); lia).
    assert (HqQ : 0 <= q_abs * Qf) by (apply Z.mul_nonneg_nonneg; lia).
    pose proof (Z.mul_div_le T 2 ltac:(lia)) as HTlow.
    assert (HT2 : 0 <= T / 2) by (apply Z.div_pos; lia).
    assert (Hdivnn : 0 <= q_abs * Qf / P) by (apply Z.div_pos; lia).
    assert (Hrecon : q_abs * Qf / P <= a2).
    { enough (q_abs * Qf / P < a2 + 1) by lia.
      apply Z.div_lt_upper_bound; lia. }
    exists (q_abs * Qf / P + T / 2). split; [|lia].
    apply (dequantize_one_small params s q_abs Hs HT Hfp); fold P Qf T.
    + lia.
    + lia.
    + intros Hs1. subst s. destruct (Z.leb_spec 0 r); lia.
    + lia.
Qed.

(** X3.  Sign symmetry of the quantizer: [quant(-r) = -quant(r)]. *)
Theorem quantize_one_opp (params : QuantizationParams) (r : Z) :
  is_i16 r -> is_i16 (- r) ->
  0 <= dead_zone_T params < 32768 ->
  1 <= fp_bits params <= 16 ->
  2 ^ fp_bits params <= quant_Q_fixed params < 4294967296 ->
  quantize_one params (- r) = - quantize_one params r.
Proof.
  intros Hr Hr' HT Hfp HQ.
  destruct (quantize_one_small params r Hr HT Hfp HQ) as [Hq Hb].
  destruct (quantize_one_small params (- r) Hr' HT Hfp HQ) as [Hq' _].
  rewrite Hq, Hq'.
  assert (Ha : a2_of (dead_zone_T params) (- r) = a2_of (dead_zone_T params) r)
    by (unfold a2_of; now rewrite Z.abs_opp).
  rewrite Ha.
  destruct (Z.eq_dec r 0) as [-> | Hnz].
  - assert (Hz : a2_of (dead_zone_T params) 0 = 0)
      by (unfold a2_of; cbn; destruct (Z.ltb_spec (dead_zone_T params) 0); lia).
    cbn [Z.opp Z.leb Z.compare]. lia.
  - destruct (Z.leb_spec 0 r), (Z.leb_spec 0 (- r)); lia.
Qed.

Lemma quantize_one_opp_at_37 :
  quantize_one params_T2_Q2 (- 37) = - quantize_one params_T2_Q2 37.
Proof.
  apply (quantize_one_opp params_T2_Q2 37).
  - unfold is_i16; lia.
  - unfold is_i16; lia.
  - vm_compute; split; [discriminate | reflexivity].
  - vm_compute; split; discriminate.
  - vm_compute; split; [discriminate | reflexivity].
Defined.

(** X4.  Sign symmetry of the dequantizer: [dequant(-q) = -dequant(q)], for
    symbols whose reconstruction fits [int16_t] and whose product with the
    step fits [uint32_t]. *)
Theorem dequantize_one_opp (params : QuantizationParams) (q : Z) :
  -32767 <= q <= 32767 ->
  0 <= dead_zone_T params < 32768 ->
  1 <= fp_bits params <= 16 ->
  0 <= quant_Q_fixed params ->
  Z.abs q * quant_Q_fixed params < 4294967296 ->
  Z.abs q * quant_Q_fixed params / 2 ^ fp_bits params + dead_zone_T params / 2 <= 32767 ->
  dequantize_one params (- q) = - dequantize_one params q.
Proof.
  intros Hq HT Hfp HQ Hmul Hrec.
  destruct (Z.eq_dec q 0) as [-> | Hnz]; [reflexivity|].
  assert (Hpos : forall s, s = 1 \/ s = -1 ->
            dequantize_one params (s * Z.abs q)
            = s * (Z.abs q * quant_Q_fixed params / 2 ^ fp_bits params
                   + dead_zone_T params / 2)).
  { intros s Hs.
    assert (0 <= Z.abs q * quant_Q_fixed params) by (apply Z.mul_nonneg_nonneg; lia).
    apply (dequantize_one_small params s (Z.abs q) Hs HT Hfp); lia. }
  destruct (Z.abs_spec q) as [[Hge Habs] | [Hlt Habs]].
  - replace (- q) with (-1 * Z.abs q) by lia.
    replace q with (1 * Z.abs q) at 2 by lia.
    rewrite !Hpos by auto. ring.
  - replace (- q) with (1 * Z.abs q) by lia.
    replace q with (-1 * Z.abs q) at 2 by lia.
    rewrite !Hpos by auto. ring.
Qed.

Lemma dequantize_one_opp_at_17 :
  dequantize_one params_T2_Q2 (- 17) = - dequantize_one params_T2_Q2 17.
Proof.
  apply (dequantize_one_opp params_T2_Q2 17); vm_compute;
    first [ reflexivity | discriminate | split; first [discriminate | reflexivity] ].
Defined.

(** The residual path on one pixel, with the symbols passed on unchanged:
    difference, quantization, dequantization and reconstruction. *)
Lemma residual_path_pixel (params : QuantizationParams) (cur prev : Z) :
  is_u16 cur -> is_u16 prev ->
  -32768 <= cur - prev <= 32767 ->
  0 <= dead_zone_T params < 32768 ->
  1 <= fp_bits params <= 16 ->
  2 ^ fp_bits params <= quant_Q_fixed params < 4294967296 ->
  let out :=
    to_u16 (clamp (prev + dequantize_one params (quantize_one params (residual_of cur prev)))
              0 65535) in
  2 * 2 ^ fp_bits params * Z.abs (cur - out)
    < 2 * (2 ^ fp_bits params * dead_zone_T params + quant_Q_fixed params)
      + 2 ^ fp_bits params
  /\ (prev <= cur -> prev <= out <= cur)
  /\ (cur <= prev -> cur <= out <= prev).
Proof.
  intros Hc Hp Hd HT Hfp HQ. unfold is_u16 in *.
  rewrite residual_of_exact by assumption.
  assert (Hr : is_i16 (cur - prev)) by (unfold is_i16; lia).
  pose proof (quantize_dequantize_error params (cur - prev) Hr HT Hfp HQ) as Herr.
  destruct (dequantize_quantize_normal_form params (cur - prev) Hr HT Hfp HQ)
    as (m & Hm & Hb).
  rewrite Hm in *. cbv zeta.
  destruct (Z.leb_spec 0 (cur - prev)).
  - rewrite clamp_u16_id by (unfold is_u16; lia).
    replace (cur - (prev + 1 * m)) with (cur - prev - 1 * m) by ring.
    repeat split; lia.
  - rewrite clamp_u16_id by (unfold is_u16; lia).
    replace (cur - (prev + -1 * m)) with (cur - prev - -1 * m) by ring.
    repeat split; lia.
Qed.

(** X6.  The residual path on a frame.  When the symbols reach the decoder
    unchanged, every reconstructed pixel lies between the previous and the
    current pixel and differs from the current one by less than
    T + Q + 1/2; nothing is clamped. *)
Theorem residual_path_frame_error (params : QuantizationParams)
    (current previous : list Z) (pixel_count i : nat) :
  (i < pixel_count)%nat ->
  is_u16 (at_ current i) -> is_u16 (at_ previous i) ->
  -32768 <= at_ current i - at_ previous i <= 32767 ->
  0 <= dead_zone_T params < 32768 ->
  1 <= fp_bits params <= 16 ->
  2 ^ fp_bits params <= quant_Q_fixed params < 4294967296 ->
  let residual := compute_residual current previous pixel_count in
  let quantized := quantize_residual residual pixel_count params in
  let reconstructed_residual := dequantize_residual quantized pixel_count params in
  let out := at_ (reconstruct_frame reconstructed_residual previous pixel_count) i in
  2 * 2 ^ fp_bits params * Z.abs (at_ current i - out)
    < 2 * (2 ^ fp_bits params * dead_zone_T params + quant_Q_fixed params)
      + 2 ^ fp_bits params
  /\ (at_ previous i <= at_ current i -> at_ previous i <= out <= at_ current i)
  /\ (at_ current i <= at_ previous i -> at_ current i <= out <= at_ previous i).
Proof.
  intros Hi Hc Hp Hd HT Hfp HQ. cbv zeta.
  unfold reconstruct_frame, dequantize_residual, quantize_residual, compute_residual.
  rewrite !at_for_pixels by assumption.
  exact (residual_path_pixel params (at_ current i) (at_ previous i) Hc Hp Hd HT Hfp HQ).
Qed.

Lemma residual_path_frame_error_at_1100 :
  let out :=
    at_ (reconstruct_frame
           (dequantize_residual
              (quantize_residual (compute_residual [1100] [1000] 1) 1 params_T2_Q2)
              1 params_T2_Q2)
           [1000] 1) 0 in
  2 * 2 ^ 8 * Z.abs (1100 - out) < 2 * (2 ^ 8 * 2 + 512) + 2 ^ 8
  /\ (1000 <= 1100 -> 1000 <= out <= 1100)
  /\ (1100 <= 1000 -> 1100 <= out <= 1000).
Proof.
  apply (residual_path_frame_error params_T2_Q2 [1100] [1000] 1 0).
  - lia.
  - unfold is_u16; cbn; lia.
  - unfold is_u16; cbn; lia.
  - cbn; lia.
  - vm_compute; split; [discriminate | reflexivity].
  - vm_compute; split; discriminate.
  - vm_compute; split; [discriminate | reflexivity].
Defined.

(** X7.  Flat regions stay flat: when no pixel moves by more than the dead-zone
    T, every symbol is 0 and the reconstructed frame is the previous frame. *)
Theorem dead_zone_keeps_previous (params : QuantizationParams)
    (current previous : list Z) (pixel_count : nat) :
  List.length previous = pixel_count ->
  Forall is_u16 previous ->
  0 <= dead_zone_T params < 32768 ->
  1 <= fp_bits params <= 16 ->
  2 ^ fp_bits params <= quant_Q_fixed params < 4294967296 ->
  (forall i, (i < pixel_count)%nat ->
     Z.abs (at_ current i - at_ previous i) <= dead_zone_T params) ->
  let quantized :=
    quantize_residual (compute_residual current previous pixel_count) pixel_count params in
  quantized = for_pixels pixel_count (fun _ => 0)
  /\ reconstruct_frame (dequantize_residual quantized pixel_count params)
       previous pixel_count = previous.
Proof.
  intros Hlen Hprev HT Hfp HQ Hflat. cbv zeta.
  assert (Hq : quantize_residual (compute_residual current previous pixel_count)
                 pixel_count params = for_pixels pixel_count (fun _ => 0)).
  { unfold quantize_residual, compute_residual.
    apply for_pixels_ext. intros i Hi. rewrite at_for_pixels by assumption.
    specialize (Hflat i Hi).
    rewrite residual_of_exact by lia.
    apply quantize_one_dead_zone; try assumption. unfold is_i16. lia. }
  split; [exact Hq|]. rewrite Hq. subst pixel_count.
  unfold reconstruct_frame, dequantize_residual.
  transitivity (for_pixels (List.length previous) (at_ previous)); [|apply for_pixels_at].
  apply for_pixels_ext. intros i Hi.
  rewrite !at_for_pixels by assumption.
  unfold dequantize_one. cbn [Z.eqb].
  replace (at_ previous i + 0) with (at_ previous i) by ring.
  apply clamp_u16_id. now apply Forall_at.
Qed.

Lemma dead_zone_keeps_previous_4x2 :
  let quantized :=
    quantize_residual
      (compute_residual [1000; 1002; 998; 1001; 1000; 1000; 999; 1002]
         [1000; 1000; 1000; 1000; 1000; 1000; 1000; 1000] 8) 8 params_T2_Q2 in
  quantized = for_pixels 8 (fun _ => 0)
  /\ reconstruct_frame (dequantize_residual quantized 8 params_T2_Q2)
       [1000; 1000; 1000; 1000; 1000; 1000; 1000; 1000] 8
     = [1000; 1000; 1000; 1000; 1000; 1000; 1000; 1000].
Proof.
  apply (dead_zone_keeps_previous params_T2_Q2
           [1000; 1002; 998; 1001; 1000; 1000; 999; 1002]
           [1000; 1000; 1000; 1000; 1000; 1000; 1000; 1000] 8).
  - reflexivity.
  - repeat constructor; unfold is_u16; lia.
  - vm_compute; split; [discriminate | reflexivity].
  - vm_compute; split; discriminate.
  - vm_compute; split; [discriminate | reflexivity].
  - intros i Hi.
    do 8 (destruct i as [|i]; [vm_compute; discriminate|]). lia.
Defined.

(** X5.  Quantize, then dequantize: the result has the sign of the residual,
    lies between 0 and the residual, and misses it by less than
    T + Q + 1/2 (in units of 2^-fp). *)
Theorem quantize_dequantize_roundtrip (params : QuantizationParams) (r : Z) :
  is_i16 r ->
  0 <= dead_zone_T params < 32768 ->
  1 <= fp_bits params <= 16 ->
  2 ^ fp_bits params <= quant_Q_fixed params < 4294967296 ->
  let r_hat := dequantize_one params (quantize_one params r) in
  (0 <= r -> 0 <= r_hat <= r)
  /\ (r <= 0 -> r <= r_hat <= 0)
  /\ 2 * 2 ^ fp_bits params * Z.abs (r - r_hat)
     < 2 * (2 ^ fp_bits params * dead_zone_T params + quant_Q_fixed params)
       + 2 ^ fp_bits params.
Proof.
  intros Hr HT Hfp HQ. cbv zeta.
  pose proof (quantize_dequantize_error params r Hr HT Hfp HQ) as Herr.
  destruct (dequantize_quantize_normal_form params r Hr HT Hfp HQ) as (m & Hm & Hb).
  rewrite Hm in *.
  destruct (Z.leb_spec 0 r); repeat split; lia.
Qed.

Lemma quantize_dequantize_roundtrip_at_1234 :
  let r_hat := dequantize_one params_T2_Q2 (quantize_one params_T2_Q2 1234) in
  (0 <= 1234 -> 0 <= r_hat <= 1234)
  /\ (1234 <= 0 -> 1234 <= r_hat <= 0)
  /\ 2 * 2 ^ fp_bits params_T2_Q2 * Z.abs (1234 - r_hat)
     < 2 * (2 ^ fp_bits params_T2_Q2 * dead_zone_T params_T2_Q2
            + quant_Q_fixed params_T2_Q2)
       + 2 ^ fp_bits params_T2_Q2.
Proof.
  apply (quantize_dequantize_roundtrip params_T2_Q2 1234).
  - unfold is_i16; lia.
  - vm_compute; split; [discriminate | reflexivity].
  - vm_compute; split; discriminate.
  - vm_compute; split; [discriminate | reflexivity].
Defined.

(** X8.  [bias_residual] then [unbias_residual] with the same offset returns
    every 16-bit residual, whatever the offset: both conversions wrap
    modulo 2^16, and the biased samples are 16-bit values. *)
Theorem bias_unbias_roundtrip (residual : list Z) (bias_offset : Z) :
  Forall is_i16 residual ->
  let biased := bias_residual residual (List.length residual) bias_offset in
  List.length biased = List.length residual
  /\ (forall i, (i < List.length residual)%nat -> 0 <= at_ biased i < 65536)
  /\ unbias_residual biased (List.length residual) bias_offset = residual.
Proof.
  intros Hall. cbv zeta. split; [apply for_pixels_length|]. split.
  - intros i Hi. unfold bias_residual. rewrite at_for_pixels by assumption.
    unfold to_u16. apply Z.mod_pos_bound. lia.
  - now apply unbias_bias_residual.
Qed.

Lemma bias_unbias_roundtrip_offset_1024 :
  let residual := [-32768; -1025; 0; 1024; 32767] in
  let biased := bias_residual residual (List.length residual) 1024 in
  List.length biased = List.length residual
  /\ (forall i, (i < List.length residual)%nat -> 0 <= at_ biased i < 65536)
  /\ unbias_residual biased (List.length residual) 1024 = residual.
Proof.
  apply (bias_unbias_roundtrip [-32768; -1025; 0; 1024; 32767] 1024).
  repeat constructor; unfold is_i16; lia.
Defined.

(* ================================================================== *)
(** * The range mapper *)

Lemma range_fold_bounds (data : list Z) (l : list nat) : forall a b mn mx,
  a <= b ->
  fold_left
    (fun (acc : Z * Z) (i : nat) =>
       let '(min_val, max_val) := acc in
       let min_val0 := if at_ data i <? min_val then at_ data i else min_val in
       let max_val0 := if max_val <? at_ data i then at_ data i else max_val in
       (min_val0, max_val0)) l (a, b) = (mn, mx) ->
  mn <= a /\ b <= mx
  /\ (forall i, In i l -> mn <= at_ data i <= mx)
  /\ (mn = a \/ exists i, In i l /\ at_ data i = mn)
  /\ (mx = b \/ exists i, In i l /\ at_ data i = mx).
Proof.
  induction l as [|k l IH]; intros a b mn mx Hab Hfold.
  - cbn in Hfold. injection Hfold as <- <-.
    split; [lia|]. split; [lia|]. split; [intros i []|]. split; now left.
  - cbn [fold_left] in Hfold.
    set (a' := if at_ data k <? a then at_ data k else a) in *.
    set (b' := if b <? at_ data k then at_ data k else b) in *.
    assert (Ha' : a' <= a /\ a' <= at_ data k /\ (a' = a \/ a' = at_ data k))
      by (subst a'; destruct (Z.ltb_spec (at_ data k) a); lia).
    assert (Hb' : b <= b' /\ at_ data k <= b' /\ (b' = b \/ b' = at_ data k))
      by (subst b'; destruct (Z.ltb_spec b (at_ data k)); lia).
    destruct (IH a' b' mn mx ltac:(lia) Hfold) as (H1 & H2 & H3 & H4 & H5).
    split; [lia|]. split; [lia|]. split; [|split].
    + intros i [<- | Hi]; [lia | now apply H3].
    + destruct H4 as [-> | (i & Hi & Hv)].
      * destruct Ha' as (_ & _ & [-> | Hk]); [now left|].
        right. exists k. split; [now left | now symmetry].
      * right. exists i. split; [now right | assumption].
    + destruct H5 as [-> | (i & Hi & Hv)].
      * destruct Hb' as (_ & _ & [-> | Hk]); [now left|].
        right. exists k. split; [now left | now symmetry].
      * right. exists i. split; [now right | assumption].
Qed.

Lemma compute_range_map_covers (data : list Z) (count : nat) :
  (0 < count)%nat ->
  (forall i, (i < count)%nat -> is_u16 (at_ data i)) ->
  let m := compute_range_map data count in
  RangeMap_wf m
  /\ (forall i, (i < count)%nat -> min_value m <= at_ data i <= max_value m)
  /\ (exists i, (i < count)%nat /\ at_ data i = min_value m)
  /\ (exists i, (i < count)%nat /\ at_ data i = max_value m).
Proof.
  intros Hpos Hu16. unfold compute_range_map.
  destruct count as [|n]; [lia|].
  replace (S n - 1)%nat with n by lia.
  destruct (fold_left _ (seq 1 n) (at_ data 0, at_ data 0)) as [mn mx] eqn:Hfold.
  destruct (range_fold_bounds data (seq 1 n) _ _ mn mx (Z.le_refl _) Hfold)
    as (H1 & H2 & H3 & H4 & H5).
  assert (Hin : forall i, In i (seq 1 n) <-> (1 <= i < S n)%nat)
    by (intros i; rewrite in_seq; lia).
  assert (Hall : forall i, (i < S n)%nat -> mn <= at_ data i <= mx).
  { intros i Hi. destruct i as [|i]; [lia|]. apply H3, Hin. lia. }
  assert (Hmn : exists i, (i < S n)%nat /\ at_ data i = mn).
  { destruct H4 as [-> | (i & Hi & Hv)]; [exists 0%nat; split; [lia|reflexivity]|].
    exists i. split; [apply Hin in Hi; lia | assumption]. }
  assert (Hmx : exists i, (i < S n)%nat /\ at_ data i = mx).
  { destruct H5 as [-> | (i & Hi & Hv)]; [exists 0%nat; split; [lia|reflexivity]|].
    exists i. split; [apply Hin in Hi; lia | assumption]. }
  cbv zeta. unfold RangeMap_wf, RangeMap_ctor. cbn [min_value max_value range].
  destruct Hmn as (i & Hi & Hvi). destruct Hmx as (j & Hj & Hvj).
  pose proof (Hu16 i Hi) as Hui. pose proof (Hu16 j Hj) as Huj. unfold is_u16 in *.
  pose proof (Hall i Hi). pose proof (Hall j Hj).
  split; [|split; [exact Hall|split; [exists i; auto|exists j; auto]]].
  split; [lia|]. split; [lia|]. split; [lia|].
  unfold to_u32. apply Z.mod_small. lia.
Qed.

(** X9.  [compute_range_map] on a non-empty buffer of 16-bit samples: every
    sample lies between [min_value] and [max_value], both are samples of
    the buffer, and [range] is their difference. *)
Theorem compute_range_map_bounds (data : list Z) (count : nat) :
  (0 < count)%nat ->
  (forall i, (i < count)%nat -> is_u16 (at_ data i)) ->
  let m := compute_range_map data count in
  RangeMap_wf m
  /\ (forall i, (i < count)%nat -> min_value m <= at_ data i <= max_value m)
  /\ (exists i, (i < count)%nat /\ at_ data i = min_value m)
  /\ (exists i, (i < count)%nat /\ at_ data i = max_value m).
Proof. exact (compute_range_map_covers data count). Qed.

Lemma compute_range_map_bounds_ranged :
  let m := compute_range_map (Frame.data frame_ranged) 3 in
  RangeMap_wf m
  /\ (forall i, (i < 3)%nat -> min_value m <= at_ (Frame.data frame_ranged) i <= max_value m)
  /\ (exists i, (i < 3)%nat /\ at_ (Frame.data frame_ranged) i = min_value m)
  /\ (exists i, (i < 3)%nat /\ at_ (Frame.data frame_ranged) i = max_value m).
Proof.
  apply (compute_range_map_bounds (Frame.data frame_ranged) 3).
  - lia.
  - intros i Hi. do 3 (destruct i as [|i]; [unfold is_u16; cbn; lia|]). lia.
Defined.

Lemma at_map_to_12bit (src : list Z) (count : nat) (m : RangeMap) (i : nat) :
  (i < count)%nat ->
  RangeMap_wf m -> 0 < range m ->
  min_value m <= at_ src i <= max_value m ->
  at_ (map_to_12bit src count m) i
    = ((at_ src i - min_value m) * 4095 + range m / 2) / range m
  /\ 0 <= ((at_ src i - min_value m) * 4095 + range m / 2) / range m <= 4095.
Proof.
  intros Hi (Hmin & Hle & Hmax & Hr) Hpos Hx.
  pose proof (Z.mul_div_le (range m) 2 ltac:(lia)) as Hh1.
  assert (Hh0 : 0 <= range m / 2) by (apply Z.div_pos; lia).
  set (v := at_ src i - min_value m) in *.
  assert (Hv : 0 <= v <= range m) by (subst v; lia).
  assert (Hq : 0 <= (v * 4095 + range m / 2) / range m <= 4095).
  { split; [apply Z.div_pos; lia|].
    enough ((v * 4095 + range m / 2) / range m < 4096) by lia.
    apply Z.div_lt_upper_bound; lia. }
  split; [|exact Hq].
  unfold map_to_12bit.
  replace (range m =? 0) with false by (symmetry; apply Z.eqb_neq; lia).
  rewrite at_for_pixels by assumption. fold v.
  rewrite (to_u32_small v) by lia.
  rewrite (to_u32_small (v * 4095 + range m / 2)) by lia.
  unfold to_u16. apply Z.mod_small. lia.
Qed.

Lemma at_map_from_12bit (src : list Z) (count : nat) (m : RangeMap) (i : nat) :
  (i < count)%nat ->
  RangeMap_wf m -> 0 < range m ->
  0 <= at_ src i <= 4095 ->
  at_ (map_from_12bit src count m) i
    = (at_ src i * range m + 2047) / 4095 + min_value m
  /\ 0 <= (at_ src i * range m + 2047) / 4095 <= range m.
Proof.
  intros Hi (Hmin & Hle & Hmax & Hr) Hpos Hy.
  set (y := at_ src i) in *.
  assert (Hyr : 0 <= y * range m <= 4095 * range m).
  { split; [apply Z.mul_nonneg_nonneg; lia|apply Z.mul_le_mono_nonneg_r; lia]. }
  assert (Hq : 0 <= (y * range m + 2047) / 4095 <= range m).
  { split; [apply Z.div_pos; lia|].
    enough ((y * range m + 2047) / 4095 < range m + 1) by lia.
    apply Z.div_lt_upper_bound; lia. }
  split; [|exact Hq].
  unfold map_from_12bit.
  replace (range m =? 0) with false by (symmetry; apply Z.eqb_neq; lia).
  rewrite at_for_pixels by assumption. fold y.
  rewrite (to_u32_small (y * range m + 2047)) by lia.
  rewrite (to_u32_small (_ + min_value m)) by lia.
  unfold to_u16. apply Z.mod_small. lia.
Qed.

(** X10.  Forward map: samples inside [min_value, max_value] get codes in
    [0, 4095]; [min_value] gets 0 and, when the range is not empty,
    [max_value] gets 4095; the order of the samples is kept. *)
Theorem map_to_12bit_codes (src : list Z) (count : nat) (m : RangeMap) (i j : nat) :
  (i < count)%nat -> (j < count)%nat ->
  RangeMap_wf m ->
  min_value m <= at_ src i <= max_value m ->
  min_value m <= at_ src j <= max_value m ->
  0 <= at_ (map_to_12bit src count m) i <= 4095
  /\ (at_ src i = min_value m -> at_ (map_to_12bit src count m) i = 0)
  /\ (at_ src i = max_value m -> 0 < range m -> at_ (map_to_12bit src count m) i = 4095)
  /\ (at_ src i <= at_ src j ->
      at_ (map_to_12bit src count m) i <= at_ (map_to_12bit src count m) j).
Proof.
  intros Hi Hj Hwf Hxi Hxj.
  destruct (Z.eq_dec (range m) 0) as [Hz | Hnz].
  - unfold map_to_12bit. rewrite Hz. cbn [Z.eqb].
    rewrite !at_for_pixels by assumption.
    repeat split; try lia.
  - assert (Hpos : 0 < range m) by (destruct Hwf as (? & ? & ? & ?); lia).
    destruct (at_map_to_12bit src count m i Hi Hwf Hpos Hxi) as [Ei Bi].
    destruct (at_map_to_12bit src count m j Hj Hwf Hpos Hxj) as [Ej Bj].
    rewrite Ei, Ej.
    pose proof (Z.mul_div_le (range m) 2 ltac:(lia)) as Hh1.
    assert (Hh0 : 0 <= range m / 2) by (apply Z.div_pos; lia).
    destruct Hwf as (Hmin & Hle & Hmax & Hr).
    split; [exact Bi|]. split; [|split].
    + intros ->. replace (min_value m - min_value m) with 0 by ring.
      cbn [Z.mul Z.add]. apply Z.div_small. lia.
    + intros -> _. rewrite <- Hr.
      replace (range m * 4095 + range m / 2) with (range m / 2 + 4095 * range m) by ring.
      rewrite Z.div_add by lia. rewrite Z.div_small by lia. reflexivity.
    + intros Hord. apply Z.div_le_mono; lia.
Qed.

Lemma map_to_12bit_codes_ranged :
  let m := RangeMap_ctor 29134 34436 in
  let src := Frame.data frame_ranged in
  0 <= at_ (map_to_12bit src 3 m) 2 <= 4095
  /\ (at_ src 2 = min_value m -> at_ (map_to_12bit src 3 m) 2 = 0)
  /\ (at_ src 2 = max_value m -> 0 < range m -> at_ (map_to_12bit src 3 m) 2 = 4095)
  /\ (at_ src 2 <= at_ src 1 -> at_ (map_to_12bit src 3 m) 2 <= at_ (map_to_12bit src 3 m) 1).
Proof.
  apply (map_to_12bit_codes (Frame.data frame_ranged) 3 (RangeMap_ctor 29134 34436) 2 1).
  - lia.
  - lia.
  - unfold RangeMap_wf. cbn. lia.
  - cbn. lia.
  - cbn. lia.
Defined.

(** X11.  Inverse map: 12-bit codes give samples inside [min_value, max_value]. *)
Theorem map_from_12bit_values (src : list Z) (count : nat) (m : RangeMap) (i : nat) :
  (i < count)%nat ->
  RangeMap_wf m ->
  0 <= at_ src i <= 4095 ->
  min_value m <= at_ (map_from_12bit src count m) i <= max_value m.
Proof.
  intros Hi Hwf Hy.
  destruct (Z.eq_dec (range m) 0) as [Hz | Hnz].
  - unfold map_from_12bit. rewrite Hz. cbn [Z.eqb].
    rewrite at_for_pixels by assumption.
    destruct Hwf as (? & ? & ? & ?). lia.
  - assert (Hpos : 0 < range m) by (destruct Hwf as (? & ? & ? & ?); lia).
    destruct (at_map_from_12bit src count m i Hi Hwf Hpos Hy) as [E B].
    rewrite E. destruct Hwf as (? & ? & ? & ?). lia.
Qed.

Lemma map_from_12bit_values_ranged :
  min_value (RangeMap_ctor 29134 34436)
    <= at_ (map_from_12bit [0; 4095; 669] 3 (RangeMap_ctor 29134 34436)) 2
    <= max_value (RangeMap_ctor 29134 34436).
Proof.
  apply (map_from_12bit_values [0; 4095; 669] 3 (RangeMap_ctor 29134 34436) 2).
  - lia.
  - unfold RangeMap_wf. cbn. lia.
  - cbn. lia.
Defined.

Lemma map_12bit_roundtrip_at (src : list Z) (count : nat) (m : RangeMap) (i : nat) :
  (i < count)%nat ->
  RangeMap_wf m ->
  min_value m <= at_ src i <= max_value m ->
  let back := at_ (map_from_12bit (map_to_12bit src count m) count m) i in
  Z.abs (at_ src i - back) <= (range m + 4094) / 4095
  /\ (range m <= 4095 -> back = at_ src i).
Proof.
  intros Hi Hwf Hx. cbv zeta.
  destruct (Z.eq_dec (range m) 0) as [Hz | Hnz].
  - unfold map_from_12bit. rewrite Hz. cbn [Z.eqb].
    rewrite at_for_pixels by assumption.
    destruct Hwf as (? & ? & ? & Hr).
    assert (at_ src i = min_value m) by lia.
    split; [|lia]. replace (at_ src i - min_value m) with 0 by lia. cbn. lia.
  - assert (Hpos : 0 < range m) by (destruct Hwf as (? & ? & ? & ?); lia).
    destruct (at_map_to_12bit src count m i Hi Hwf Hpos Hx) as [Ef Bf].
    assert (Hy : 0 <= at_ (map_to_12bit src count m) i <= 4095) by (rewrite Ef; exact Bf).
    destruct (at_map_from_12bit (map_to_12bit src count m) count m i Hi Hwf Hpos Hy)
      as [Eg Bg].
    rewrite Eg. rewrite Ef in *. clear Ef Eg Hy.
    destruct Hwf as (Hmin & Hle & Hmax & Hr).
    set (r := range m) in *. set (v := at_ src i - min_value m) in *.
    assert (Hv : 0 <= v <= r) by (subst v; lia).
    set (y := (v * 4095 + r / 2) / r) in *.
    set (g := (y * r + 2047) / 4095) in *.
    pose proof (Z.mul_div_le r 2 ltac:(lia)) as Hh1.
    pose proof (Z.mul_succ_div_gt r 2 ltac:(lia)) as Hh2.
    pose proof (Z.mul_div_le (v * 4095 + r / 2) r ltac:(lia)) as Hy1.
    pose proof (Z.mul_succ_div_gt (v * 4095 + r / 2) r ltac:(lia)) as Hy2.
    fold y in Hy1, Hy2.
    pose proof (Z.mul_div_le (y * r + 2047) 4095 ltac:(lia)) as Hg1.
    pose proof (Z.mul_succ_div_gt (y * r + 2047) 4095 ltac:(lia)) as Hg2.
    fold g in Hg1, Hg2.
    pose proof (Z.mul_div_le (r + 4094) 4095 ltac:(lia)) as Hc1.
    pose proof (Z.mul_succ_div_gt (r + 4094) 4095 ltac:(lia)) as Hc2.
    replace (at_ src i - (g + min_value m)) with (v - g) by (subst v; ring).
    split.
    + lia.
    + intros Hsmall.
      enough (g = v) by (subst v; lia).
      destruct (Z.eq_dec r 4095) as [E | NE].
      * assert (Hyv : y = v).
        { subst y. rewrite E. replace (4095 / 2) with 2047 by reflexivity.
          replace (v * 4095 + 2047) with (2047 + v * 4095) by ring.
          rewrite Z.div_add by lia. reflexivity. }
        subst g. rewrite Hyv, E.
        replace (v * 4095 + 2047) with (2047 + v * 4095) by ring.
        rewrite Z.div_add by lia. reflexivity.
      * lia.
Qed.

(** X12.  Round trip of the range mapper: a sample inside the range comes back
    within [ceil(range / 4095)] of itself, and exactly when the range is at
    most 4095. *)
Theorem map_12bit_roundtrip (src : list Z) (count : nat) (m : RangeMap) (i : nat) :
  (i < count)%nat ->
  RangeMap_wf m ->
  min_value m <= at_ src i <= max_value m ->
  let back := at_ (map_from_12bit (map_to_12bit src count m) count m) i in
  Z.abs (at_ src i - back) <= (range m + 4094) / 4095
  /\ (range m <= 4095 -> back = at_ src i).
Proof. exact (map_12bit_roundtrip_at src count m i). Qed.

Lemma map_12bit_roundtrip_ranged :
  let m := RangeMap_ctor 29134 34436 in
  let src := Frame.data frame_ranged in
  let back := at_ (map_from_12bit (map_to_12bit src 3 m) 3 m) 2 in
  Z.abs (at_ src 2 - back) <= (range m + 4094) / 4095
  /\ (range m <= 4095 -> back = at_ src 2).
Proof.
  apply (map_12bit_roundtrip (Frame.data frame_ranged) 3 (RangeMap_ctor 29134 34436) 2).
  - lia.
  - unfold RangeMap_wf. cbn. lia.
  - cbn. lia.
Defined.

Lemma bits_loop_spec (fuel : nat) : forall val bits,
  0 <= val < 2 ^ Z.of_nat fuel ->
  0 <= bits -> bits + Z.of_nat fuel < 4294967296 ->
  bits_loop fuel val bits = bits + (if 0 <? val then Z.log2 val + 1 else 0).
Proof.
  induction fuel as [|fuel IH]; intros val bits Hval Hbits Hroom.
  - cbn in Hval. cbn [bits_loop].
    replace (0 <? val) with false by (symmetry; apply Z.ltb_ge; lia). lia.
  - cbn [bits_loop]. destruct (Z.ltb_spec 0 val) as [Hpos | Hz]; [|lia].
    rewrite (to_u32_small (bits + 1)) by lia.
    unfold shr32. change (1 <? 32) with true. cbv iota.
    rewrite Z.shiftr_div_pow2 by lia. change (2 ^ 1) with 2.
    assert (Hhalf : 0 <= val / 2 < 2 ^ Z.of_nat fuel).
    { split; [apply Z.div_pos; lia|].
      apply Z.div_lt_upper_bound; [lia|].
      rewrite <- Z.pow_succ_r by lia. rewrite <- Nat2Z.inj_succ. lia. }
    assert (Hroom' : bits + 1 + Z.of_nat fuel < 4294967296)
      by (rewrite Nat2Z.inj_succ in Hroom; lia).
    rewrite (IH (val / 2) (bits + 1) Hhalf ltac:(lia) Hroom').
    destruct (Z.ltb_spec 0 (val / 2)) as [Hh | Hh].
    + assert (Hlog : Z.log2 (val / 2) = Z.log2 val - 1).
      { change (val / 2) with (val / 2 ^ 1).
        rewrite <- (Z.shiftr_div_pow2 val 1) by lia.
        rewrite Z.log2_shiftr by lia.
        assert (1 <= Z.log2 val).
        { apply Z.log2_le_pow2; [lia|]. change (2 ^ 1) with 2.
          assert (val / 2 * 2 <= val) by (rewrite Z.mul_comm; apply Z.mul_div_le; lia).
          lia. }
        lia. }
      lia.
    + assert (Hone : val = 1).
      { pose proof (Z.mul_succ_div_gt val 2 ltac:(lia)). lia. }
      rewrite Hone. cbn. lia.
Qed.

(** X13.  [bits_needed] counts the binary digits of the range (1 for an empty
    range), and the map is beneficial exactly when the range needs at most
    15 bits. *)
Theorem bits_needed_spec (m : RangeMap) :
  0 <= range m < 4294967296 ->
  bits_needed m = (if range m =? 0 then 1 else Z.log2 (range m) + 1)
  /\ (is_beneficial m = true <-> bits_needed m <= 15).
Proof.
  intros Hr. unfold bits_needed, is_beneficial.
  destruct (Z.eqb_spec (range m) 0) as [Hz | Hnz].
  - split; [reflexivity|]. rewrite Hz. cbn. split; [lia | reflexivity].
  - assert (Hloop : bits_loop 32 (range m) 0 = Z.log2 (range m) + 1).
    { rewrite bits_loop_spec by (cbn; lia).
      replace (0 <? range m) with true by (symmetry; apply Z.ltb_lt; lia). lia. }
    rewrite Hloop. split; [reflexivity|].
    rewrite Z.ltb_lt. change 32768 with (2 ^ 15).
    split; intros H.
    + enough (Z.log2 (range m) < 15) by lia. apply Z.log2_lt_pow2; lia.
    + apply Z.log2_lt_pow2; lia.
Qed.

Lemma bits_needed_spec_5302 :
  bits_needed (RangeMap_ctor 29134 34436)
    = (if range (RangeMap_ctor 29134 34436) =? 0 then 1
       else Z.log2 (range (RangeMap_ctor 29134 34436)) + 1)
  /\ (is_beneficial (RangeMap_ctor 29134 34436) = true
      <-> bits_needed (RangeMap_ctor 29134 34436) <= 15).
Proof.
  apply (bits_needed_spec (RangeMap_ctor 29134 34436)). cbn. lia.
Defined.

(* ================================================================== *)
(** * Further properties of the frame codec *)

(** X14.  No failure commits anything: whenever [encode_intra_frame],
    [encode_residual_frame], [encode_frame] or [decode_frame] fails, for
    whatever reason, the codec is the one it was before the call. *)
Theorem frame_codec_failure_keeps_state (codec : CharLS) (enc : FrameEncoder)
    (frame : Frame.t) (near_lossless residual_near : Z) (quant_params : QuantizationParams)
    (enable_12bit_mode is_keyframe : bool) (compressed : CompressedFrame.t) (e : failure) :
  (fst (encode_intra_frame enc frame near_lossless enable_12bit_mode) = Failed e ->
     snd (encode_intra_frame enc frame near_lossless enable_12bit_mode) = enc)
  /\ (fst (encode_residual_frame enc frame near_lossless quant_params) = Failed e ->
      snd (encode_residual_frame enc frame near_lossless quant_params) = enc)
  /\ (fst (encode_frame enc frame is_keyframe near_lossless residual_near quant_params
             enable_12bit_mode) = Failed e ->
      snd (encode_frame enc frame is_keyframe near_lossless residual_near quant_params
             enable_12bit_mode) = enc)
  /\ (fst (decode_frame enc compressed) = Failed e ->
      snd (decode_frame enc compressed) = enc).
Proof.
  assert (Hintra : forall near,
            fst (encode_intra_frame enc frame near enable_12bit_mode) = Failed e ->
            snd (encode_intra_frame enc frame near enable_12bit_mode) = enc).
  { intros near. unfold encode_intra_frame.
    destruct (encode_charls_16bit _ _ _ _ _); [|reflexivity].
    destruct ((near =? 0) || (0 <? near)); [|discriminate].
    destruct (decode_charls_16bit _ _ _); [discriminate|reflexivity]. }
  assert (Hres : forall near,
            fst (encode_residual_frame enc frame near quant_params) = Failed e ->
            snd (encode_residual_frame enc frame near quant_params) = enc).
  { intros near. unfold encode_residual_frame.
    destruct (negb (reference_frame_initialized_ enc)); [reflexivity|].
    destruct (negb _ || negb _); [reflexivity|].
    destruct (encode_charls_16bit _ _ _ _ _); [|reflexivity].
    destruct (0 <? near); [|discriminate].
    destruct (decode_charls_16bit _ _ _); [discriminate|reflexivity]. }
  split; [apply Hintra|]. split; [apply Hres|]. split.
  - unfold encode_frame. destruct is_keyframe; [apply Hintra | apply Hres].
  - unfold decode_frame.
    destruct (CompressedFrame.is_keyframe compressed).
    + destruct (decode_charls_16bit _ _ _); [discriminate|reflexivity].
    + destruct (negb (reference_frame_initialized_ enc)); [reflexivity|].
      destruct (decode_charls_16bit _ _ _); [discriminate|reflexivity].
Qed.

Lemma frame_codec_failure_keeps_state_mismatch :
  snd (encode_residual_frame (codec := raw_codec) codec_ref_1000 frame_ranged 0 params_T2_Q2)
    = codec_ref_1000.
Proof.
  pose proof (frame_codec_failure_keeps_state raw_codec codec_ref_1000 frame_ranged 0 0
                params_T2_Q2 false false record_ranged DimensionMismatch) as (_ & H & _).
  apply H. reflexivity.
Defined.

(** X15.  The closed loop of residual frames: at NEAR > 0, and with
    quantization parameters that survive the trip through the record, a
    decoder in the encoder's previous state that receives the emitted
    record returns the encoder's new reference frame, samples and metadata,
    and ends in the encoder's new state. *)
Theorem residual_decoder_agreement (codec : CharLS) (enc : FrameEncoder) (frame : Frame.t)
    (near_lossless : Z) (quant_params : QuantizationParams)
    (output : CompressedFrame.t) (enc' : FrameEncoder) :
  0 < near_lossless ->
  QuantizationParams_ctor (dead_zone_T quant_params) (get_Q quant_params)
    (fp_bits quant_params) = quant_params ->
  encode_residual_frame enc frame near_lossless quant_params = (Success output, enc') ->
  decode_frame enc output = (Success (reference_frame_ enc'), enc').
Proof.
  intros Hnear Hparams. unfold encode_residual_frame.
  destruct (reference_frame_initialized_ enc) eqn:Hinit; cbn [negb]; [|discriminate].
  destruct (Z.eqb_spec (Frame.width frame) (Frame.width (reference_frame_ enc)))
    as [Hw|]; cbn [negb orb]; [|discriminate].
  destruct (Z.eqb_spec (Frame.height frame) (Frame.height (reference_frame_ enc)))
    as [Hh|]; cbn [negb]; [|discriminate].
  destruct (encode_charls_16bit _ _ _ _ _) as [bytes|]; [|discriminate].
  apply Z.ltb_lt in Hnear. rewrite Hnear.
  destruct (decode_charls_16bit bytes _ _) as [decoded_unsigned|] eqn:Hdec;
    [|discriminate].
  intros H. injection H as <- <-.
  unfold decode_frame.
  cbn [CompressedFrame.is_keyframe CompressedFrame.compressed_data CompressedFrame.width
       CompressedFrame.height CompressedFrame.timestamp CompressedFrame.frame_index
       CompressedFrame.dead_zone_T CompressedFrame.quant_Q CompressedFrame.fp_bits].
  rewrite Hinit, Hdec, Hparams. cbn [negb].
  unfold update_reference. cbn [reference_frame_]. now rewrite Hw, Hh.
Qed.

Lemma residual_decoder_agreement_at_near_1 :
  decode_frame (codec := raw_codec) codec_ref_1000
    (CompressedFrame.mk
       (CompressedFrame.compressed_data record_residual_1002)
       1 1 1 0 false 1 2%float 2 8 0 65535 false)
  = (Success (reference_frame_ (mkFrameEncoder (Frame.mk [1000] 1 1 0 1) true)),
     mkFrameEncoder (Frame.mk [1000] 1 1 0 1) true).
Proof.
  apply (residual_decoder_agreement raw_codec codec_ref_1000 frame_1002 1 params_T2_Q2).
  - lia.
  - vm_compute. reflexivity.
  - vm_compute. reflexivity.
Defined.



Lemma compute_range_map_is_ctor (data : list Z) (count : nat) :
  RangeMap_ctor (min_value (compute_range_map data count))
    (max_value (compute_range_map data count)) = compute_range_map data count.
Proof.
  unfold compute_range_map. destruct count; [reflexivity|].
  destruct (fold_left _ _ _). reflexivity.
Qed.

(** X17.  The closed loop of a keyframe over a coder that loses nothing.  For a
    valid frame of 16-bit samples [encode_intra_frame] succeeds, and the
    reference it stores is the frame itself when no range map is used, and
    otherwise within [ceil(range / 4095)] of the frame at every pixel
    (exactly the frame when the range is at most 4095). *)
Theorem keyframe_reference_error (codec : CharLS) (enc : FrameEncoder) (frame : Frame.t)
    (near_lossless : Z) (enable_12bit_mode : bool) (bytes : list Byte.byte) :
  Frame_is_valid frame = true ->
  Frame.width frame < 4294967296 -> Frame.height frame < 4294967296 ->
  Frame.width frame * Frame.height frame < 4294967296 ->
  Forall is_u16 (Frame.data frame) ->
  0 <= near_lossless ->
  let n := pixel_count_of (Frame.width frame) (Frame.height frame) in
  let m := compute_range_map (Frame.data frame) n in
  let use_map := enable_12bit_mode && is_beneficial m in
  coder_returns
    (if use_map then map_to_12bit (Frame.data frame) n m else Frame.data frame)
    (mk_frame_info (Frame.width frame) (Frame.height frame) (if use_map then 12 else 16) 1)
    near_lossless bytes ->
  exists output enc',
    encode_intra_frame enc frame near_lossless enable_12bit_mode = (Success output, enc')
    /\ CompressedFrame.compressed_data output = bytes
    /\ CompressedFrame.use_range_map output = use_map
    /\ (use_map = false -> Frame.data (reference_frame_ enc') = Frame.data frame)
    /\ forall i, (i < n)%nat ->
         Z.abs (at_ (Frame.data frame) i - at_ (Frame.data (reference_frame_ enc')) i)
           <= (if use_map then (range m + 4094) / 4095 else 0)
         /\ (range m <= 4095 ->
             at_ (Frame.data (reference_frame_ enc')) i = at_ (Frame.data frame) i).
Proof.
  intros Hvalid Hw Hh Hwh Hu16 Hnear n m use_map (Henc & Hhdr & Hdec).
  unfold Frame_is_valid, Frame_pixel_count in Hvalid.
  apply andb_prop in Hvalid as [Hvalid Hlen].
  apply andb_prop in Hvalid as [Hvalid Hhpos].
  apply andb_prop in Hvalid as [Hne Hwpos].
  apply Z.ltb_lt in Hwpos, Hhpos. apply Z.eqb_eq in Hlen.
  apply negb_true_iff, Nat.eqb_neq in Hne.
  assert (Hprod : 0 <= Frame.width frame * Frame.height frame)
    by (apply Z.mul_nonneg_nonneg; lia).
  rewrite to_u32_small in Hlen by lia.
  assert (Hn : n = List.length (Frame.data frame)).
  { subst n. unfold pixel_count_of. rewrite to_u32_small by lia. lia. }
  assert (Hn' : Z.to_nat (Frame.width frame * Frame.height frame)
                = List.length (Frame.data frame)) by lia.
  assert (Hcover : forall i, (i < n)%nat -> is_u16 (at_ (Frame.data frame) i)).
  { intros i Hi. apply Forall_at; [assumption | lia]. }
  destruct (compute_range_map_covers (Frame.data frame) n ltac:(lia) Hcover)
    as (Hwf & Hin & _ & _). fold m in Hwf, Hin.
  assert (Hdatalen :
            List.length (if use_map then map_to_12bit (Frame.data frame) n m
                         else Frame.data frame) = List.length (Frame.data frame)).
  { destruct use_map; [|reflexivity]. unfold map_to_12bit.
    destruct (range m =? 0); rewrite for_pixels_length; exact Hn. }
  rewrite Hdatalen in Hdec.
  unfold encode_intra_frame. fold n. fold m. fold use_map.
  unfold encode_charls_16bit. rewrite !to_u32_small by lia.
  rewrite Henc.
  replace ((near_lossless =? 0) || (0 <? near_lossless)) with true.
  2:{ symmetry. apply orb_true_iff.
      destruct (Z.eq_dec near_lossless 0) as [-> | Hnz]; [now left|].
      right. apply Z.ltb_lt. lia. }
  unfold decode_charls_16bit. rewrite Hhdr.
  cbn [fi_width fi_height fi_bits_per_sample]. rewrite !Z.eqb_refl. cbn [negb orb].
  replace (negb ((if use_map then 12 else 16) =? 16)
           && negb ((if use_map then 12 else 16) =? 12)) with false
    by (destruct use_map; reflexivity).
  rewrite Hn', Hdec.
  eexists _, _. split; [reflexivity|].
  cbn [CompressedFrame.compressed_data CompressedFrame.use_range_map
       reference_frame_ Frame.data].
  split; [reflexivity|]. split; [reflexivity|].
  destruct use_map eqn:Hum.
  - split; [discriminate|]. intros i Hi.
    cbv iota.
    replace (RangeMap_ctor (min_value m) (max_value m)) with m
      by (symmetry; apply compute_range_map_is_ctor).
    exact (map_12bit_roundtrip_at (Frame.data frame) n m i Hi Hwf (Hin i Hi)).
  - split; [reflexivity|]. intros i Hi.
    replace (at_ (Frame.data frame) i - at_ (Frame.data frame) i) with 0 by ring.
    cbn. split; [lia | reflexivity].
Qed.

Lemma keyframe_reference_error_ranged :
  exists output enc',
    encode_intra_frame (codec := raw_codec) FrameEncoder_ctor frame_ranged 0 true
      = (Success output, enc')
    /\ CompressedFrame.compressed_data output = CompressedFrame.compressed_data record_ranged
    /\ forall i, (i < 3)%nat ->
         Z.abs (at_ (Frame.data frame_ranged) i - at_ (Frame.data (reference_frame_ enc')) i)
           <= 2.
Proof.
  destruct (keyframe_reference_error raw_codec FrameEncoder_ctor frame_ranged 0 true
              (CompressedFrame.compressed_data record_ranged))
    as (output & enc' & Heq & Hbytes & _ & _ & Hpix).
  - reflexivity.
  - cbn. lia.
  - cbn. lia.
  - cbn. lia.
  - repeat constructor; unfold is_u16; lia.
  - lia.
  - vm_compute. repeat split; reflexivity.
  - exists output, enc'. split; [exact Heq|]. split; [exact Hbytes|].
    intros i Hi. destruct (Hpix i Hi) as [Hb _]. exact Hb.
Defined.

(** ** The frame loop of the pipeline *)

Lemma encode_frame_success (codec : CharLS) enc frame is_keyframe keyframe_near
    residual_near quant_params enable_12bit_mode output enc' :
  0 <= keyframe_near ->
  encode_frame enc frame is_keyframe keyframe_near residual_near quant_params
    enable_12bit_mode = (Success output, enc') ->
  reference_frame_initialized_ enc' = true
  /\ CompressedFrame.is_keyframe output = is_keyframe
  /\ CompressedFrame.frame_index output = Frame.frame_index frame.
Proof.
  intros Hnear. unfold encode_frame. destruct is_keyframe.
  - unfold encode_intra_frame.
    destruct (encode_charls_16bit _ _ _ _ _); [|discriminate].
    replace ((keyframe_near =? 0) || (0 <? keyframe_near)) with true.
    2:{ symmetry. apply orb_true_iff.
        destruct (Z.eq_dec keyframe_near 0) as [-> | Hnz]; [now left|].
        right. apply Z.ltb_lt. lia. }
    destruct (decode_charls_16bit _ _ _); [|discriminate].
    intros H. injection H as <- <-. cbn. auto.
  - unfold encode_residual_frame.
    destruct (reference_frame_initialized_ enc) eqn:Hinit; cbn [negb]; [|discriminate].
    destruct (negb _ || negb _); [discriminate|].
    destruct (encode_charls_16bit _ _ _ _ _); [|discriminate].
    destruct (0 <? residual_near).
    + destruct (decode_charls_16bit _ _ _); [|discriminate].
      intros H. injection H as <- <-. cbn. auto.
    + intros H. injection H as <- <-. cbn. auto.
Qed.

Lemma encode_frame_no_reference (codec : CharLS) enc frame is_keyframe keyframe_near
    residual_near quant_params enable_12bit_mode :
  fst (encode_frame enc frame is_keyframe keyframe_near residual_near quant_params
         enable_12bit_mode) = Failed NoReference ->
  is_keyframe = false /\ reference_frame_initialized_ enc = false.
Proof.
  unfold encode_frame. destruct is_keyframe.
  - unfold encode_intra_frame.
    destruct (encode_charls_16bit _ _ _ _ _); [|discriminate].
    destruct ((keyframe_near =? 0) || (0 <? keyframe_near)); [|discriminate].
    destruct (decode_charls_16bit _ _ _); discriminate.
  - unfold encode_residual_frame.
    destruct (reference_frame_initialized_ enc); cbn [negb]; [|auto].
    destruct (negb _ || negb _); [discriminate|].
    destruct (encode_charls_16bit _ _ _ _ _); [|discriminate].
    destruct (0 <? residual_near); [|discriminate].
    destruct (decode_charls_16bit _ _ _); discriminate.
Qed.

Lemma pipeline_loop_reference (codec : CharLS) (config : ConfigEngine.CompressionConfig)
    (frames : list Frame.t) : forall engine encoder i,
  0 <= ConfigEngine.keyframe_near config ->
  (0 < i -> reference_frame_initialized_ encoder = true) ->
  pipeline_loop config engine encoder i frames <> Failed NoReference.
Proof.
  induction frames as [|frame rest IH]; intros engine encoder i Hnear Hinit.
  - discriminate.
  - cbn [pipeline_loop].
    destruct (if 0 <? i then _ else _) as [mode engine1] eqn:Hmode.
    destruct (encode_frame _ _ _ _ _ _ _) as [[compressed | e] encoder1] eqn:Henc.
    + destruct (encode_frame_success _ _ _ _ _ _ _ _ _ _ Hnear Henc) as (Hready & _ & _).
      specialize (IH (ConfigEngine.update_stats engine1
                        (Z.of_nat (List.length (CompressedFrame.compressed_data compressed)))
                        (FrameMode_eqb mode USE_INTRA))
                     encoder1 (i + 1) Hnear (fun _ => Hready)).
      destruct (pipeline_loop _ _ _ _ _); [discriminate|].
      intros H. apply IH. exact H.
    + intros H. injection H as ->.
      pose proof (encode_frame_no_reference codec encoder (stamp frame i)
                    (FrameMode_eqb mode USE_INTRA) (ConfigEngine.keyframe_near config)
                    (ConfigEngine.residual_near config)
                    (QuantizationParams_ctor (ConfigEngine.dead_zone_T config)
                       (ConfigEngine.quant_Q config) (ConfigEngine.fp_bits config))
                    (ConfigEngine.enable_12bit_mode config)) as Hno.
      rewrite Henc in Hno. destruct (Hno eq_refl) as [Hk Hni].
      destruct (Z.ltb_spec 0 i) as [Hpos | Hle].
      * rewrite (Hinit Hpos) in Hni. discriminate.
      * injection Hmode as <- _. discriminate.
Qed.

Lemma pipeline_loop_modes (codec : CharLS) (config : ConfigEngine.CompressionConfig)
    (frames : list Frame.t) : forall engine encoder i records,
  0 <= ConfigEngine.keyframe_near config ->
  0 <= i -> i + Z.of_nat (List.length frames) <= 4294967296 ->
  pipeline_loop config engine encoder i frames = Success records ->
  List.length records = List.length frames
  /\ map record_mode records
     = pipeline_modes engine i
         (map (fun r => (ResidualStats_default,
                         Z.of_nat (List.length (CompressedFrame.compressed_data r))))
            records)
  /\ map CompressedFrame.frame_index records
     = map (fun k => i + Z.of_nat k) (seq 0 (List.length frames)).
Proof.
  induction frames as [|frame rest IH]; intros engine encoder i records Hnear Hi Hroom.
  - cbn. intros H. injection H as <-. auto.
  - cbn [pipeline_loop List.length] in *.
    assert (Hidx : Frame.frame_index (stamp frame i) = i)
      by (unfold stamp; cbn; apply to_u32_small; lia).
    rewrite Hidx.
    destruct (if 0 <? i then _ else _) as [mode engine1] eqn:Hmode.
    destruct (encode_frame _ _ _ _ _ _ _) as [[compressed | e] encoder1] eqn:Henc;
      [|discriminate].
    destruct (encode_frame_success _ _ _ _ _ _ _ _ _ _ Hnear Henc) as (_ & Hkey & Hfi).
    rewrite Hidx in Hfi.
    destruct (pipeline_loop _ _ _ _ rest) as [records1 | e] eqn:Hrest; [|discriminate].
    intros H. injection H as <-.
    assert (Hi1 : 0 <= i + 1) by lia.
    assert (Hroom1 : i + 1 + Z.of_nat (List.length rest) <= 4294967296) by lia.
    destruct (IH _ _ _ _ Hnear Hi1 Hroom1 Hrest) as (Hlen & Hmodes & Hidxs).
    split; [cbn; lia|]. split.
    + cbn [map pipeline_modes]. unfold pipeline_frame. rewrite Hmode.
      rewrite <- Hmodes. f_equal.
      unfold record_mode. rewrite Hkey. destruct mode; reflexivity.
    + cbn [map seq]. rewrite Hfi, Hidxs. f_equal; [lia|].
      rewrite <- seq_shift, map_map. apply map_ext. intros k. lia.
Qed.

(** X21.  The frame loop never fails for want of a reference: frame 0 is a
    keyframe and every successful encode leaves the reference in place. *)
Theorem pipeline_loop_never_lacks_reference (codec : CharLS)
    (config : ConfigEngine.CompressionConfig) (frames : list Frame.t) :
  0 <= ConfigEngine.keyframe_near config ->
  pipeline_loop config (ConfigEngine.FrameDecisionEngine_ctor config) FrameEncoder_ctor
    0 frames <> Failed NoReference.
Proof.
  intros Hnear. apply pipeline_loop_reference; [assumption | lia].
Qed.

(** X22.  The records of a successful run: one record per frame, numbered from
    0 in order, the first a keyframe, and every run of consecutive residual
    records shorter than the keyframe period. *)
Theorem pipeline_loop_records (codec : CharLS) (config : ConfigEngine.CompressionConfig)
    (frames : list Frame.t) (records : list CompressedFrame.t)
    (pre rs post : list FrameMode) :
  0 <= ConfigEngine.keyframe_near config ->
  1 <= ConfigEngine.gop_period config < 4294967296 ->
  Z.of_nat (List.length frames) <= 4294967296 ->
  pipeline_loop config (ConfigEngine.FrameDecisionEngine_ctor config) FrameEncoder_ctor
    0 frames = Success records ->
  List.length records = List.length frames
  /\ map CompressedFrame.frame_index records
     = map Z.of_nat (seq 0 (List.length frames))
  /\ (forall r, hd_error records = Some r -> CompressedFrame.is_keyframe r = true)
  /\ (map record_mode records = pre ++ rs ++ post ->
      Forall (eq USE_RESIDUAL) rs ->
      Z.of_nat (List.length rs) < ConfigEngine.gop_period config).
Proof.
  intros Hnear Hgop Hlenf Hrun.
  destruct (pipeline_loop_modes codec config frames _ _ 0 records Hnear ltac:(lia)
              ltac:(lia) Hrun) as (Hlen & Hmodes & Hidx).
  split; [exact Hlen|]. split; [exact Hidx|]. split.
  - intros r Hr. destruct records as [|r0 records]; [discriminate|].
    injection Hr as ->. cbn [map pipeline_modes] in Hmodes.
    unfold pipeline_frame in Hmodes. cbn [Z.ltb Z.compare] in Hmodes.
    injection Hmodes as Hm _. unfold record_mode in Hm.
    destruct (CompressedFrame.is_keyframe r); [reflexivity | discriminate].
  - intros Hsplit Hall. rewrite Hmodes in Hsplit.
    eapply (Periodic.residual_runs pre (ConfigEngine.FrameDecisionEngine_ctor config) 0).
    + cbn. lia.
    + unfold since_key_ok. cbn. lia.
    + exact Hsplit.
    + exact Hall.
Qed.

Lemma pipeline_loop_never_lacks_reference_1x1 :
  pipeline_loop (codec := raw_codec) config_gop3_sharp
    (ConfigEngine.FrameDecisionEngine_ctor config_gop3_sharp) FrameEncoder_ctor
    0 frames_1x1 <> Failed NoReference.
Proof.
  apply (pipeline_loop_never_lacks_reference raw_codec config_gop3_sharp frames_1x1).
  cbn. lia.
Defined.

Lemma pipeline_loop_records_1x1 :
  List.length records_1x1 = List.length frames_1x1
  /\ map CompressedFrame.frame_index records_1x1 = [0; 1; 2; 3]
  /\ map record_mode records_1x1 = [USE_INTRA; USE_RESIDUAL; USE_RESIDUAL; USE_INTRA]
  /\ Z.of_nat (List.length [USE_RESIDUAL; USE_RESIDUAL])
     < ConfigEngine.gop_period config_gop3_sharp.
Proof.
  destruct (pipeline_loop_records raw_codec config_gop3_sharp frames_1x1 records_1x1
              [USE_INTRA] [USE_RESIDUAL; USE_RESIDUAL] [USE_INTRA])
    as (Hlen & Hidx & _ & Hruns).
  - cbn. lia.
  - cbn. lia.
  - cbn. lia.
  - vm_compute. reflexivity.
  - split; [exact Hlen|]. split; [exact Hidx|]. split; [reflexivity|].
    apply Hruns; [reflexivity | repeat constructor].
Defined.

(* ------------------------------------------------------------------ *)
(** ** Decoding: header checks and keyframes *)

(** X19.  [decode_frame] refuses a record whose byte string has no readable
    header, or whose header disagrees with the record's width or height, or
    announces a bit depth other than 12 and 16; the decoder is returned
    as it was.  (For a residual record the decoder must hold a reference
    to get as far as the header.) *)
Theorem decode_frame_checks_header (codec : CharLS) (enc : FrameEncoder)
    (compressed : CompressedFrame.t) :
  CompressedFrame.is_keyframe compressed = true
  \/ reference_frame_initialized_ enc = true ->
  match charls_read_header (CompressedFrame.compressed_data compressed) with
  | None => True
  | Some frame_info =>
      fi_width frame_info <> CompressedFrame.width compressed
      \/ fi_height frame_info <> CompressedFrame.height compressed
      \/ (fi_bits_per_sample frame_info <> 16 /\ fi_bits_per_sample frame_info <> 12)
  end ->
  decode_frame enc compressed = (Failed DecodeFailure, enc).
Proof.
  intros Hstart Hheader.
  assert (Hdec : decode_charls_16bit (CompressedFrame.compressed_data compressed)
                   (CompressedFrame.width compressed) (CompressedFrame.height compressed)
                 = None).
  { unfold decode_charls_16bit.
    destruct (charls_read_header _) as [frame_info|]; [|reflexivity].
    destruct Hheader as [Hw | [Hh | [H16 H12]]].
    - apply Z.eqb_neq in Hw. now rewrite Hw.
    - apply Z.eqb_neq in Hh. rewrite Hh. cbn [negb]. now rewrite orb_true_r.
    - apply Z.eqb_neq in H16, H12. rewrite H16, H12. cbn [negb andb].
      now rewrite !orb_true_r. }
  unfold decode_frame. rewrite Hdec.
  destruct (CompressedFrame.is_keyframe compressed); [reflexivity|].
  destruct Hstart as [Hk | Hinit]; [discriminate|]. now rewrite Hinit.
Qed.

Lemma decode_frame_checks_header_wrong_width :
  decode_frame (codec := raw_codec) codec_ref_1000
    (CompressedFrame.mk (put_u16 2 ++ put_u16 1 ++ put_u16 16 ++ put_u16 5 ++ put_u16 6)
       1 1 1 0 false 0 2%float 2 8 0 65535 false)
  = (Failed DecodeFailure, codec_ref_1000).
Proof.
  apply (decode_frame_checks_header raw_codec codec_ref_1000).
  - right. reflexivity.
  - vm_compute. left. discriminate.
Defined.

(** X18.  A keyframe emitted without range mapping, at NEAR >= 0: whatever
    decoder receives the record returns the frame the encoder has stored as
    its reference, with the same samples and metadata, and keeps its own
    state. *)
Theorem keyframe_decoder_agreement (codec : CharLS) (enc dec : FrameEncoder)
    (frame : Frame.t) (near_lossless : Z) (enable_12bit_mode : bool)
    (output : CompressedFrame.t) (enc' : FrameEncoder) :
  0 <= near_lossless ->
  encode_intra_frame enc frame near_lossless enable_12bit_mode = (Success output, enc') ->
  CompressedFrame.use_range_map output = false ->
  decode_frame dec output = (Success (reference_frame_ enc'), dec).
Proof.
  intros Hnear. unfold encode_intra_frame.
  set (use_map := enable_12bit_mode && is_beneficial _).
  destruct (encode_charls_16bit _ _ _ _ _) as [bytes|]; [|discriminate].
  assert (Hn : (near_lossless =? 0) || (0 <? near_lossless) = true).
  { destruct (Z.eqb_spec near_lossless 0); [reflexivity|].
    cbn [orb]. apply Z.ltb_lt. lia. }
  rewrite Hn.
  destruct (decode_charls_16bit bytes _ _) as [decoded|] eqn:Hdec; [|discriminate].
  intros H. injection H as <- <-.
  cbn [CompressedFrame.use_range_map]. intros Hmap.
  unfold decode_frame.
  cbn [CompressedFrame.is_keyframe CompressedFrame.compressed_data CompressedFrame.width
       CompressedFrame.height CompressedFrame.timestamp CompressedFrame.frame_index].
  rewrite Hdec. cbn [reference_frame_]. now rewrite Hmap.
Qed.

Lemma keyframe_decoder_agreement_2x2 :
  decode_frame (codec := raw_codec) codec_ref_1000
    (CompressedFrame.mk
       (put_u16 2 ++ put_u16 2 ++ put_u16 16 ++ flat_map put_u16 [100; 200; 300; 400])
       2 2 3 7 true 0 0%float 0 0 0 65535 false)
  = (Success (reference_frame_ (mkFrameEncoder frame_2x2 true)), codec_ref_1000).
Proof.
  apply (keyframe_decoder_agreement raw_codec FrameEncoder_ctor codec_ref_1000
           frame_2x2 0 false).
  - lia.
  - vm_compute. reflexivity.
  - reflexivity.
Defined.

(* ------------------------------------------------------------------ *)
(** ** frame.hpp: constructed frames *)

(** X20.  [Frame(w, h)] holds [w * h mod 2^32] zeros, and it is valid exactly
    when that wrapped product is not zero: always when the true product
    fits 32 bits and both sides are positive, never for a side of 0 or for
    a product that is a multiple of 2^32 (65536 x 65536). *)
Theorem Frame_ctor_valid (w h idx ts : Z) :
  0 <= w < 4294967296 ->
  0 <= h < 4294967296 ->
  let f := Frame_ctor w h idx ts in
  Z.of_nat (List.length (Frame.data f)) = Frame_pixel_count f
  /\ Forall (fun v => v = 0) (Frame.data f)
  /\ (Frame_is_valid f = true <-> to_u32 (w * h) <> 0)
  /\ (0 < w -> 0 < h -> w * h < 4294967296 -> Frame_is_valid f = true).
Proof.
  intros Hw Hh. cbv zeta.
  assert (Hu : 0 <= to_u32 (w * h) < 4294967296)
    by (unfold to_u32; apply Z.mod_pos_bound; lia).
  assert (Hlen : Z.of_nat (List.length (Frame.data (Frame_ctor w h idx ts)))
                 = to_u32 (w * h)).
  { unfold Frame_ctor. cbn [Frame.data]. rewrite repeat_length. lia. }
  assert (Hiff : Frame_is_valid (Frame_ctor w h idx ts) = true <-> to_u32 (w * h) <> 0).
  { unfold Frame_is_valid, Frame_pixel_count.
    change (Frame.width (Frame_ctor w h idx ts)) with w.
    change (Frame.height (Frame_ctor w h idx ts)) with h.
    rewrite !andb_true_iff, negb_true_iff, Nat.eqb_neq, !Z.ltb_lt, Z.eqb_eq.
    split.
    - intros (((Hne & _) & _) & _). lia.
    - intros Hnz. repeat split; try lia.
      + destruct (Z.eq_dec w 0) as [-> | ]; [|lia]. now rewrite Z.mul_0_l in Hnz.
      + destruct (Z.eq_dec h 0) as [-> | ]; [|lia]. now rewrite Z.mul_0_r in Hnz. }
  split; [exact Hlen|]. split.
  - unfold Frame_ctor. cbn [Frame.data]. apply Forall_forall.
    intros v Hv. now apply repeat_spec in Hv.
  - split; [exact Hiff|]. intros Hw0 Hh0 Hfit. apply Hiff.
    unfold to_u32. rewrite Z.mod_small; nia.
Qed.

Lemma Frame_ctor_valid_65536 :
  let f := Frame_ctor 65536 65536 0 0 in
  Z.of_nat (List.length (Frame.data f)) = Frame_pixel_count f
  /\ Forall (fun v => v = 0) (Frame.data f)
  /\ (Frame_is_valid f = true <-> to_u32 (65536 * 65536) <> 0)
  /\ (0 < 65536 -> 0 < 65536 -> 65536 * 65536 < 4294967296 -> Frame_is_valid f = true).
Proof. apply (Frame_ctor_valid 65536 65536 0 0); lia. Defined.

(* ================================================================== *)
(** * Further properties of the decision engine of decision.cpp *)

(** X23.  Frames with consecutive indices, decided by the engine of decision.cpp
    with a keyframe period [g] >= 1: a run of [n] USE_RESIDUAL answers has
    [n < g], and no frame of the run has an index that is a multiple of
    [g]. *)
Theorem decision_engine_run_length (g : Z) (states : nat -> DecisionEngine.DecisionState)
    (stats : nat -> ResidualStats) (i0 : Z) (n : nat) :
  1 <= g ->
  (forall k, DecisionEngine.gop_period (states k) = g) ->
  (forall k, (k < n)%nat ->
     DecisionEngine.decide_mode (states k) (stats k) (i0 + Z.of_nat k) = USE_RESIDUAL) ->
  Z.of_nat n < g
  /\ (forall k, (k < n)%nat -> (i0 + Z.of_nat k) mod g <> 0).
Proof.
  intros Hg Hper Hrun. split.
  - exact (decision_engine_residual_run g states stats i0 n Hg Hper Hrun).
  - intros k Hk Hmod. specialize (Hrun k Hk).
    unfold DecisionEngine.decide_mode in Hrun.
    assert (Hforce : DecisionEngine.should_force_periodic (states k) (i0 + Z.of_nat k)
                     = true).
    { apply should_force_periodic_iff. left. now rewrite Hper. }
    rewrite Hforce in Hrun. discriminate.
Qed.

Lemma decision_engine_run_length_on_defaults :
  Z.of_nat 2 < 60
  /\ (forall k, (k < 2)%nat -> (1 + Z.of_nat k) mod 60 <> 0).
Proof.
  apply (decision_engine_run_length 60 (fun _ => DecisionEngine.DecisionState_default)
           (fun _ => stats_still) 1 2).
  - lia.
  - intros k. reflexivity.
  - intros k Hk. destruct k as [|[|k]]; [vm_compute; reflexivity..|lia].
Defined.




(* ================================================================== *)
(** * The residual histogram *)

Module HistogramFacts.
Import Histogram.

Lemma to_u64_small z : 0 <= z < 18446744073709551616 -> to_u64 z = z.
Proof. intros H. unfold to_u64. now apply Z.mod_small. Qed.

Lemma bin_of_lt (r : Z) : (bin_of r < NUM_BINS)%nat.
Proof.
  unfold bin_of, NUM_BINS.
  destruct (Z.leb_spec (Z.of_nat 1024) (Z.abs r)); lia.
Qed.

Lemma inc_bin_length (bins : list Z) : forall k,
  List.length (inc_bin bins k) = List.length bins.
Proof.
  induction bins as [|b bins IH]; intros [|k]; cbn; auto.
Qed.

Lemma at_inc_bin (bins : list Z) : forall k j,
  (k < List.length bins)%nat ->
  at_ (inc_bin bins k) j = if Nat.eqb j k then to_u64 (at_ bins k + 1) else at_ bins j.
Proof.
  unfold at_. induction bins as [|b bins IH]; intros k j Hk; [cbn in Hk; lia|].
  destruct k as [|k], j as [|j]; cbn; auto.
  apply IH. cbn in Hk. lia.
Qed.

Lemma bins_sum_inc_bin (bins : list Z) : forall k,
  (k < List.length bins)%nat ->
  0 <= at_ bins k -> at_ bins k + 1 < 18446744073709551616 ->
  bins_sum (inc_bin bins k) = bins_sum bins + 1.
Proof.
  unfold at_. induction bins as [|b bins IH]; intros k Hk H0 H1; [cbn in Hk; lia|].
  destruct k as [|k]; cbn [inc_bin nth List.length] in *.
  - change (bins_sum (to_u64 (b + 1) :: bins)) with (to_u64 (b + 1) + bins_sum bins).
    change (bins_sum (b :: bins)) with (b + bins_sum bins).
    rewrite to_u64_small by lia. lia.
  - change (bins_sum (b :: inc_bin bins k)) with (b + bins_sum (inc_bin bins k)).
    change (bins_sum (b :: bins)) with (b + bins_sum bins).
    rewrite IH by (try assumption; lia). lia.
Qed.

Lemma at_le_bins_sum (bins : list Z) : forall k,
  Forall (fun b => 0 <= b) bins -> 0 <= at_ bins k <= bins_sum bins.
Proof.
  unfold at_. induction bins as [|b bins IH]; intros k Hall.
  - destruct k; cbn; lia.
  - inversion Hall as [|? ? Hb Hrest]; subst.
    assert (Hs : 0 <= bins_sum bins) by (specialize (IH 0%nat Hrest); lia).
    change (bins_sum (b :: bins)) with (b + bins_sum bins).
    destruct k as [|k]; cbn [nth]; [lia|].
    specialize (IH k Hrest). lia.
Qed.

Lemma Forall_inc_bin (bins : list Z) : forall k,
  Forall (fun b => 0 <= b) bins -> Forall (fun b => 0 <= b) (inc_bin bins k).
Proof.
  induction bins as [|b bins IH]; intros k Hall; [destruct k; constructor|].
  inversion Hall; subst.
  destruct k; cbn; constructor; auto.
  unfold to_u64. apply Z.mod_pos_bound. lia.
Qed.

Lemma hits_succ (residuals : list Z) (n k : nat) :
  hits residuals (S n) k
  = (hits residuals n k + (if Nat.eqb (bin_of (at_ residuals n)) k then 1 else 0))%nat.
Proof.
  unfold hits. rewrite seq_S, filter_app, length_app. cbn [filter Nat.add].
  destruct (Nat.eqb (bin_of (at_ residuals n)) k); reflexivity.
Qed.

Lemma accumulate_bins (residuals : list Z) (bins0 : list Z) (count : nat) :
  List.length bins0 = NUM_BINS ->
  Forall (fun b => 0 <= b) bins0 ->
  bins_sum bins0 + Z.of_nat count < 18446744073709551616 ->
  let bins :=
    fold_left (fun bins i => inc_bin bins (bin_of (at_ residuals i))) (seq 0 count) bins0 in
  List.length bins = NUM_BINS
  /\ Forall (fun b => 0 <= b) bins
  /\ bins_sum bins = bins_sum bins0 + Z.of_nat count
  /\ forall k, at_ bins k = at_ bins0 k + Z.of_nat (hits residuals count k).
Proof.
  intros Hlen Hnn. induction count as [|n IH]; intros Hroom; cbv zeta.
  - cbn [seq fold_left]. split; [exact Hlen|]. split; [exact Hnn|]. split; [cbn; lia|].
    intros k. unfold hits. cbn. lia.
  - rewrite seq_S, fold_left_app. cbn [fold_left Nat.add].
    destruct (IH ltac:(lia)) as (Hl & Hf & Hs & Hat).
    set (bins := fold_left _ (seq 0 n) bins0) in *.
    pose proof (bin_of_lt (at_ residuals n)) as Hb.
    pose proof (at_le_bins_sum bins (bin_of (at_ residuals n)) Hf) as Hbound.
    split; [rewrite inc_bin_length; exact Hl|].
    split; [apply Forall_inc_bin; exact Hf|].
    split.
    + rewrite bins_sum_inc_bin by lia. lia.
    + intros k. rewrite at_inc_bin by lia. rewrite hits_succ.
      destruct (Nat.eqb_spec k (bin_of (at_ residuals n))) as [-> | Hne].
      * rewrite Nat.eqb_refl. rewrite to_u64_small by lia. rewrite Hat. lia.
      * replace (Nat.eqb (bin_of (at_ residuals n)) k) with false
          by (symmetry; apply Nat.eqb_neq; congruence).
        rewrite Hat. lia.
Qed.

End HistogramFacts.

Lemma histogram_accumulate_ok (h : Histogram.ResidualHistogram) (residuals : list Z)
    (count : nat) :
  Histogram.histogram_ok h ->
  Histogram.total_samples_ h + Z.of_nat count < 18446744073709551616 ->
  let h' := Histogram.accumulate h residuals count in
  Histogram.histogram_ok h'
  /\ Histogram.total_samples_ h' = Histogram.total_samples_ h + Z.of_nat count
  /\ forall k,
       at_ (Histogram.bins_ h') k
       = at_ (Histogram.bins_ h) k + Z.of_nat (Histogram.hits residuals count k).
Proof.
  intros (Hlen & Hnn & Hsum & Htot) Hroom. cbv zeta.
  destruct (HistogramFacts.accumulate_bins residuals (Histogram.bins_ h) count Hlen Hnn
              ltac:(lia)) as (Hl & Hf & Hs & Hat).
  assert (H0 : 0 <= Histogram.total_samples_ h).
  { rewrite <- Hsum. pose proof (HistogramFacts.at_le_bins_sum _ 0%nat Hnn). lia. }
  unfold Histogram.accumulate, Histogram.histogram_ok.
  cbn [Histogram.bins_ Histogram.total_samples_].
  rewrite HistogramFacts.to_u64_small by lia.
  repeat split; try assumption; try lia.
Qed.

Lemma histogram_ctor_ok : Histogram.histogram_ok Histogram.ResidualHistogram_ctor.
Proof.
  unfold Histogram.histogram_ok, Histogram.ResidualHistogram_ctor.
  cbn [Histogram.bins_ Histogram.total_samples_].
  split; [apply repeat_length|]. split; [|split; [vm_compute; reflexivity | lia]].
  apply Forall_forall. intros b Hb. apply repeat_spec in Hb. lia.
Qed.

(** X25.  [accumulate] builds the histogram of the clamped magnitudes: a
    histogram in its normal state stays so, its sample count grows by
    [count], and bin [k] grows by the number of the [count] residuals whose
    magnitude, clamped to 1023, is [k]. *)
Theorem histogram_accumulate (h : Histogram.ResidualHistogram) (residuals : list Z)
    (count : nat) :
  Histogram.histogram_ok h ->
  Histogram.total_samples_ h + Z.of_nat count < 18446744073709551616 ->
  let h' := Histogram.accumulate h residuals count in
  Histogram.histogram_ok h'
  /\ Histogram.total_samples_ h' = Histogram.total_samples_ h + Z.of_nat count
  /\ forall k,
       at_ (Histogram.bins_ h') k
       = at_ (Histogram.bins_ h) k + Z.of_nat (Histogram.hits residuals count k).
Proof. exact (histogram_accumulate_ok h residuals count). Qed.

Lemma histogram_accumulate_fresh :
  let h' := Histogram.accumulate Histogram.ResidualHistogram_ctor [3; -3; 0; 2000; -1] 5 in
  Histogram.histogram_ok h'
  /\ Histogram.total_samples_ h'
     = Histogram.total_samples_ Histogram.ResidualHistogram_ctor + Z.of_nat 5
  /\ forall k,
       at_ (Histogram.bins_ h') k
       = at_ (Histogram.bins_ Histogram.ResidualHistogram_ctor) k
         + Z.of_nat (Histogram.hits [3; -3; 0; 2000; -1] 5 k).
Proof.
  apply (histogram_accumulate Histogram.ResidualHistogram_ctor [3; -3; 0; 2000; -1] 5).
  - exact histogram_ctor_ok.
  - cbn. lia.
Defined.

Module HistogramScans.
Import Histogram.




Lemma max_scan_spec (bins : list Z) : forall i,
  let r := max_scan i bins in
  (0 < at_ bins r /\ (r < i)%nat /\ forall j, (r < j < i)%nat -> at_ bins j <= 0)
  \/ (r = 0%nat /\ forall j, (j < i)%nat -> at_ bins j <= 0).
Proof.
  induction i as [|i IH]; cbv zeta.
  - right. split; [reflexivity|]. intros j Hj. lia.
  - cbn [max_scan]. destruct (Z.ltb_spec 0 (at_ bins i)) as [Hpos | Hz].
    + left. split; [exact Hpos|]. split; [lia|]. intros j Hj. lia.
    + destruct IH as [(Hp & Hr & Hab) | (Hr & Hall)].
      * left. split; [exact Hp|]. split; [lia|].
        intros j Hj. destruct (Nat.eq_dec j i) as [-> | Hne]; [exact Hz|].
        apply Hab. lia.
      * right. split; [exact Hr|].
        intros j Hj. destruct (Nat.eq_dec j i) as [-> | Hne]; [exact Hz|].
        apply Hall. lia.
Qed.

End HistogramScans.



(** X27.  [max_value] is the number of the highest bin that is not empty, and 0
    when every bin is empty. *)
Theorem histogram_max_value (h : Histogram.ResidualHistogram) :
  exists r,
    Histogram.max_value h = Z2double (Z.of_nat r)
    /\ ((0 < at_ (Histogram.bins_ h) r /\ (r < Histogram.NUM_BINS)%nat
         /\ forall j, (r < j < Histogram.NUM_BINS)%nat -> at_ (Histogram.bins_ h) j <= 0)
        \/ (r = 0%nat
            /\ forall j, (j < Histogram.NUM_BINS)%nat -> at_ (Histogram.bins_ h) j <= 0)).
Proof.
  eexists. split; [reflexivity|].
  apply (HistogramScans.max_scan_spec (Histogram.bins_ h) Histogram.NUM_BINS).
Qed.

(** X28.  [clear] returns any histogram of [NUM_BINS] bins to the state of a new
    one, so an accumulation after [clear] counts the new residuals only:
    the sample count is [count] and bin [k] holds the number of residuals
    whose clamped magnitude is [k]. *)
Theorem histogram_clear_accumulate (h : Histogram.ResidualHistogram) (residuals : list Z)
    (count : nat) :
  List.length (Histogram.bins_ h) = Histogram.NUM_BINS ->
  Z.of_nat count < 18446744073709551616 ->
  let h' := Histogram.accumulate (Histogram.clear h) residuals count in
  Histogram.clear h = Histogram.ResidualHistogram_ctor
  /\ Histogram.histogram_ok h'
  /\ Histogram.total_samples_ h' = Z.of_nat count
  /\ forall k, at_ (Histogram.bins_ h') k = Z.of_nat (Histogram.hits residuals count k).
Proof.
  intros Hlen Hcount. cbv zeta.
  assert (Hc : Histogram.clear h = Histogram.ResidualHistogram_ctor).
  { unfold Histogram.clear, Histogram.ResidualHistogram_ctor. f_equal.
    rewrite <- Hlen. generalize (Histogram.bins_ h).
    induction l as [|b l IH]; cbn; [reflexivity | now rewrite IH]. }
  split; [exact Hc|]. rewrite Hc.
  destruct (histogram_accumulate_ok Histogram.ResidualHistogram_ctor residuals count histogram_ctor_ok
              ltac:(cbn; lia)) as (Hok & Htot & Hat).
  split; [exact Hok|]. split; [exact Htot|].
  intros k. rewrite Hat.
  assert (Hz : at_ (Histogram.bins_ Histogram.ResidualHistogram_ctor) k = 0).
  { unfold at_, Histogram.ResidualHistogram_ctor. cbn [Histogram.bins_].
    destruct (Nat.lt_ge_cases k Histogram.NUM_BINS) as [Hk | Hk].
    - now rewrite nth_repeat.
    - apply nth_overflow. rewrite repeat_length. exact Hk. }
  rewrite Hz. lia.
Qed.

Lemma histogram_clear_accumulate_twice :
  let h := Histogram.accumulate Histogram.ResidualHistogram_ctor [3; -3; 0; 2000; -1] 5 in
  let h' := Histogram.accumulate (Histogram.clear h) [7; 7] 2 in
  Histogram.clear h = Histogram.ResidualHistogram_ctor
  /\ Histogram.histogram_ok h'
  /\ Histogram.total_samples_ h' = Z.of_nat 2
  /\ forall k, at_ (Histogram.bins_ h') k = Z.of_nat (Histogram.hits [7; 7] 2 k).
Proof.
  apply (histogram_clear_accumulate
           (Histogram.accumulate Histogram.ResidualHistogram_ctor [3; -3; 0; 2000; -1] 5)
           [7; 7] 2).
  - vm_compute. reflexivity.
  - cbn. lia.
Defined.

(* ================================================================== *)
(** * The session counters *)

Module SessionFacts.
Import Session.

Lemma to_u32_add_l (a b : Z) : to_u32 (to_u32 a + b) = to_u32 (a + b).
Proof. unfold to_u32. now rewrite Z.add_mod_idemp_l by lia. Qed.

Lemma to_u64_add_l (a b : Z) : to_u64 (to_u64 a + b) = to_u64 (a + b).
Proof. unfold to_u64. now rewrite Z.add_mod_idemp_l by lia. Qed.

Lemma to_u32_range (a : Z) : 0 <= to_u32 a < 4294967296.
Proof. unfold to_u32. apply Z.mod_pos_bound. lia. Qed.

Lemma to_u64_range (a : Z) : 0 <= to_u64 a < 18446744073709551616.
Proof. unfold to_u64. apply Z.mod_pos_bound. lia. Qed.

Lemma add_frame_ok (s : SessionStats) (fs : FrameStats) :
  counters_ok s -> counters_ok (add_frame s fs).
Proof.
  intros (H1 & H2 & H3 & H4 & H5). unfold counters_ok, add_frame.
  cbn [total_frames keyframes residual_frames total_original_bytes total_compressed_bytes].
  pose proof to_u32_range. pose proof to_u64_range.
  destruct (is_keyframe fs); repeat split; try apply to_u32_range; try apply to_u64_range; lia.
Qed.

Lemma add_frames_counters (frames : list FrameStats) : forall s,
  counters_ok s ->
  let s' := fold_left add_frame frames s in
  counters_ok s'
  /\ total_frames s' = to_u32 (total_frames s + Z.of_nat (List.length frames))
  /\ keyframes s' = to_u32 (keyframes s + Z.of_nat (count_key frames))
  /\ residual_frames s' = to_u32 (residual_frames s + Z.of_nat (count_residual frames))
  /\ total_original_bytes s' = to_u64 (total_original_bytes s + sum_original frames)
  /\ total_compressed_bytes s'
     = to_u64 (total_compressed_bytes s + sum_compressed frames).
Proof.
  induction frames as [|fs frames IH]; intros s Hok; cbv zeta.
  - cbn [fold_left List.length count_key count_residual sum_original sum_compressed
         filter fold_right].
    destruct Hok as (H1 & H2 & H3 & H4 & H5).
    split; [repeat split; lia|].
    rewrite !Z.add_0_r.
    unfold to_u32, to_u64. rewrite !Z.mod_small by lia. repeat split.
  - cbn [fold_left].
    destruct (IH (add_frame s fs) (add_frame_ok s fs Hok)) as (Hk & Ht & Hkey & Hres & Ho & Hc).
    split; [exact Hk|].
    rewrite Ht, Hkey, Hres, Ho, Hc. clear IH Ht Hkey Hres Ho Hc Hk.
    destruct Hok as (H1 & H2 & H3 & H4 & H5).
    unfold add_frame, count_key, count_residual.
    cbn [total_frames keyframes residual_frames total_original_bytes total_compressed_bytes
         List.length filter sum_original sum_compressed fold_right].
    fold (sum_original frames). fold (sum_compressed frames).
    rewrite !to_u32_add_l, !to_u64_add_l.
    destruct (is_keyframe fs); cbn [negb List.length];
      rewrite ?to_u32_add_l; repeat split; f_equal; lia.
Qed.

Lemma count_key_residual (frames : list FrameStats) :
  (count_key frames + count_residual frames = List.length frames)%nat.
Proof.
  unfold count_key, count_residual.
  induction frames as [|fs frames IH]; [reflexivity|].
  cbn [filter List.length]. destruct (is_keyframe fs); cbn [negb List.length]; lia.
Qed.

End SessionFacts.

(** X29.  The counters of a session count: after [add_frame] for each of a list
    of frames, starting from a new [SessionStats], [total_frames],
    [keyframes] and [residual_frames] are the numbers of frames, keyframes
    and residual frames (modulo 2^32), keyframes and residual frames add up
    to the total, the byte totals are the sums of the frames' bytes (modulo
    2^64), and [finalize] changes none of them. *)
Theorem session_counters (frames : list Session.FrameStats) :
  let s := fold_left Session.add_frame frames Session.SessionStats_ctor in
  Session.total_frames s = to_u32 (Z.of_nat (List.length frames))
  /\ Session.keyframes s = to_u32 (Z.of_nat (Session.count_key frames))
  /\ Session.residual_frames s = to_u32 (Z.of_nat (Session.count_residual frames))
  /\ to_u32 (Session.keyframes s + Session.residual_frames s) = Session.total_frames s
  /\ Session.total_original_bytes s = to_u64 (Session.sum_original frames)
  /\ Session.total_compressed_bytes s = to_u64 (Session.sum_compressed frames)
  /\ Session.total_frames (Session.finalize s) = Session.total_frames s
  /\ Session.keyframes (Session.finalize s) = Session.keyframes s
  /\ Session.residual_frames (Session.finalize s) = Session.residual_frames s
  /\ Session.total_original_bytes (Session.finalize s) = Session.total_original_bytes s
  /\ Session.total_compressed_bytes (Session.finalize s) = Session.total_compressed_bytes s.
Proof.
  cbv zeta.
  assert (Hok : Session.counters_ok Session.SessionStats_ctor)
    by (unfold Session.counters_ok; cbn; lia).
  destruct (SessionFacts.add_frames_counters frames Session.SessionStats_ctor Hok)
    as (_ & Ht & Hk & Hr & Ho & Hc).
  cbn [Session.SessionStats_ctor Session.total_frames Session.keyframes
       Session.residual_frames Session.total_original_bytes
       Session.total_compressed_bytes Z.add] in Ht, Hk, Hr, Ho, Hc.
  split; [exact Ht|]. split; [exact Hk|]. split; [exact Hr|].
  split.
  - rewrite Ht, Hk, Hr.
    pose proof (SessionFacts.count_key_residual frames) as Hsum.
    unfold to_u32. rewrite <- Z.add_mod by lia. f_equal. lia.
  - split; [exact Ho|]. split; [exact Hc|]. repeat split.
Qed.
